(** * SEURA: audio to polar spectrogram (archive/audio_to_image.py)

    A shallow embedding of the numeric pipeline of [audio_to_image.py] and
    the properties of it that the specification states.

    Modelling conventions.
    - Python integers are [Z]; [//] is [Z.div] (both round towards minus
      infinity), guarded by [ZeroDivisionError].
    - Python exceptions are the constructors of [exn]; a function that can
      raise returns a [result].
    - Quantities computed from integers only (bin frequencies, hue table,
      radii) are exact rationals [Q], so that they evaluate.
    - Sample data are real numbers [R]: numpy's floating-point arithmetic is
      idealised to exact arithmetic (no rounding, no overflow; storing into
      the float32 work array is the identity).  What IEEE arithmetic adds to
      the reals and the program depends on, the values [inf] and [nan] that
      a division by zero produces without raising, is kept: see [npfloat].
    - A 2-D array is the list of its rows; all rows of an array have the
      same length. *)

From Stdlib Require Import ZArith List Bool Lia QArith Qminmax Reals Psatz.
Import ListNotations.

Set Implicit Arguments.

(** ** Python primitives *)

Module Py.

Inductive exn : Type :=
| ZeroDivisionError
| ValueError
| IndexError.

Inductive result (A : Type) : Type :=
| Ok (a : A)
| Raise (e : exn).

Arguments Ok {A} a.
Arguments Raise {A} e.

Definition bind {A B : Type} (c : result A) (k : A -> result B) : result B :=
  match c with
  | Ok a => k a
  | Raise e => Raise e
  end.

Fixpoint mapM {A B : Type} (f : A -> result B) (l : list A) : result (list B) :=
  match l with
  | [] => Ok []
  | x :: xs =>
      bind (f x) (fun y => bind (mapM f xs) (fun ys => Ok (y :: ys)))
  end.

(** [range(n)] and [range(a, b)] *)
Definition range (n : Z) : list Z := map Z.of_nat (seq 0 (Z.to_nat n)).
Definition range2 (a b : Z) : list Z := map (fun i => a + i)%Z (range (b - a)).

Definition len {A : Type} (l : list A) : Z := Z.of_nat (length l).

(** [a // b] on integers *)
Definition floordiv (a b : Z) : result Z :=
  if (b =? 0)%Z then Raise ZeroDivisionError else Ok (a / b)%Z.

(** [a / b] on integers: true division, here exact *)
Definition truediv (a b : Z) : result Q :=
  if (b =? 0)%Z then Raise ZeroDivisionError else Ok (inject_Z a / inject_Z b)%Q.

(** [l[i]]: a negative index counts from the end *)
Definition getitem {A : Type} (l : list A) (i : Z) : result A :=
  let j := if (i <? 0)%Z then (i + len l)%Z else i in
  if (j <? 0)%Z then Raise IndexError
  else match nth_error l (Z.to_nat j) with
       | Some x => Ok x
       | None => Raise IndexError
       end.

(** [l[start:stop]]: indices are normalised and clamped, never raise *)
Definition slice_index (n i : Z) : Z :=
  if (i <? 0)%Z then Z.max 0 (i + n) else Z.min i n.

Definition slice {A : Type} (l : list A) (start stop : Z) : list A :=
  let s := slice_index (len l) start in
  let e := slice_index (len l) stop in
  firstn (Z.to_nat (e - s)) (skipn (Z.to_nat s) l).

End Py.

Import Py.

Notation "x <- c ;; k" := (bind c (fun x => k))
  (at level 61, c at next level, right associativity).

Definition Qltb (x y : Q) : bool := negb (Qle_bool y x).

(** ** Band Mapper *)

Definition get_frequency_band (index sample_rate frame_size : Z) : result Z :=
  freq <- truediv (index * sample_rate) frame_size ;;
  if Qle_bool 0 freq && Qltb freq 60 then Ok 0%Z
  else if Qle_bool 60 freq && Qltb freq 250 then Ok 1%Z
  else if Qle_bool 250 freq && Qltb freq 500 then Ok 2%Z
  else if Qle_bool 500 freq && Qltb freq 2000 then Ok 3%Z
  else if Qle_bool 2000 freq && Qltb freq 4000 then Ok 4%Z
  else if Qle_bool 4000 freq && Qltb freq 6000 then Ok 5%Z
  else if Qle_bool 6000 freq then Ok 6%Z
  else Ok 7%Z.

Definition hue_values : list Q := [0; 1#10; 2#10; 4#10; 6#10; 8#10; 9#10]%Q.

Definition band_to_hue (band : Z) : result Q := getitem hue_values band.

Definition band_to_numbins (band : Z) : Z :=
  if (band =? 0)%Z then 2
  else if (band =? 1)%Z then 4
  else if (band =? 2)%Z then 5
  else if (band =? 3)%Z then 32
  else if (band =? 4)%Z then 43
  else if (band =? 5)%Z then 42
  else if (band =? 6)%Z then 384
  else 0.

(** ** numpy primitives *)

Module Np.

(** A float64 value of an output array: a real number, or one of the
    special values that numpy's division by zero yields (with a warning,
    not an exception). *)
Inductive npfloat : Type :=
| Fin (x : R)
| PInf
| NInf
| NaN.

Definition matrix (T : Type) : Type := list (list T).

Definition mmap {A B : Type} (f : A -> B) (M : matrix A) : matrix B :=
  map (map f) M.

Definition cell {T : Type} (M : matrix T) (r c : nat) : option T :=
  match nth_error M r with
  | Some row => nth_error row c
  | None => None
  end.

(** [x / y] on floats: [0/0] is nan, [x/0] is signed infinity *)
Definition div (x y : R) : npfloat :=
  if Req_dec_T y 0 then
    if Req_dec_T x 0 then NaN
    else if Rlt_dec 0 x then PInf else NInf
  else Fin (x / y).

(** [s * x] for a possibly infinite scalar [s]: [inf * 0] is nan *)
Definition scale (s : npfloat) (x : R) : npfloat :=
  match s with
  | Fin a => Fin (a * x)
  | PInf => if Req_dec_T x 0 then NaN else if Rlt_dec 0 x then PInf else NInf
  | NInf => if Req_dec_T x 0 then NaN else if Rlt_dec 0 x then NInf else PInf
  | NaN => NaN
  end.

(** [c + y] for a finite constant [c] *)
Definition offset (c : R) (y : npfloat) : npfloat :=
  match y with
  | Fin b => Fin (c + b)
  | other => other
  end.

(** [np.min], [np.max]: a reduction without identity raises on an array
    of size zero *)
Definition reduce {T : Type} (op : T -> T -> T) (l : list T) : result T :=
  match l with
  | [] => Raise ValueError
  | x :: xs => Ok (fold_left op xs x)
  end.

Definition amin (M : matrix R) : result R := reduce Rmin (concat M).
Definition amax (M : matrix R) : result R := reduce Rmax (concat M).

(** [np.empty(shape)], [np.zeros(n)]: negative dimensions are refused *)
Definition check_dims (dims : list Z) : result unit :=
  if forallb (fun d => (0 <=? d)%Z) dims then Ok tt else Raise ValueError.

(** [np.fft.fftfreq(n, d)]: [val = 1.0 / (n * d)], then the integers
    [0 .. (n-1)//2] followed by [-(n//2) .. -1], times [val] *)
Definition fftfreq (n : Z) (d : Q) : result (list Q) :=
  let nd := (inject_Z n * d)%Q in
  if Qeq_bool nd 0 then Raise ZeroDivisionError
  else
    let val := (1 / nd)%Q in
    _ <- check_dims [n] ;;
    let N := ((n - 1) / 2 + 1)%Z in
    let p1 := range2 0 N in
    let p2 := range2 (- (n / 2)) 0 in
    Ok (map (fun i => inject_Z i * val)%Q (p1 ++ p2)).

(** [np.linspace(start, stop, num)] with the end point included:
    [arange(num) * step + start], last element set to [stop] *)
Definition linspace (start stop : Q) (num : Z) : list Q :=
  let step := ((stop - start) / inject_Z (num - 1))%Q in
  let y := map (fun i => inject_Z i * step + start)%Q (range num) in
  if (1 <? num)%Z then removelast y ++ [stop] else y.

(** [a * b] on 1-D arrays: elementwise, a length-1 operand is broadcast,
    other length mismatches raise *)
Definition multiply (a b : list R) : result (list R) :=
  if (length a =? length b)%nat then Ok (map (fun p => fst p * snd p)%R (combine a b))
  else match a, b with
       | [x], _ => Ok (map (fun y => x * y)%R b)
       | _, [y] => Ok (map (fun x => x * y)%R a)
       | _, _ => Raise ValueError
       end.

(** [row[:] = v] for a row of [n] cells: [v] has [n] values, or one value
    that is broadcast *)
Definition assign_row (n : Z) (v : list R) : result (list R) :=
  if (len v =? n)%Z then Ok v
  else match v with
       | [x] => Ok (repeat x (Z.to_nat n))
       | _ => Raise ValueError
       end.

(** [np.stack((h, s, v), axis=-1)]: the three arrays must have the same
    shape *)
Definition shape {T : Type} (M : matrix T) : list nat := map (@length T) M.

Definition zip3 {A B C : Type} (a : list A) (b : list B) (c : list C)
  : list (A * B * C) := combine (combine a b) c.

Definition stack3 {T : Type} (h s v : matrix T) : result (matrix (T * T * T)) :=
  if list_eq_dec Nat.eq_dec (shape h) (shape s) then
    if list_eq_dec Nat.eq_dec (shape s) (shape v) then
      Ok (map (fun p => zip3 (fst (fst p)) (snd (fst p)) (snd p)) (zip3 h s v))
    else Raise ValueError
  else Raise ValueError.

End Np.

Import Np.

(** ** Framer/Transformer *)

Definition log10 (x : R) : R := (ln x / ln 10)%R.

Definition Rsum (l : list R) : R := fold_right Rplus 0%R l.

(** [np.sin(np.pi * (np.arange(frame_size) + 0.5) / frame_size)] *)
Definition sine_window (frame_size : Z) : list R :=
  map (fun i => sin (PI * (IZR i + 0.5) / IZR frame_size))%R (range frame_size).

(** [fftpack.dct(x, type=2, norm='ortho')], by its definition:
    [y[k] = f(k) * 2 * sum_n x[n] * cos(pi * k * (2n+1) / (2N))] with
    [f(0) = sqrt(1/(4N))] and [f(k) = sqrt(1/(2N))] otherwise.
    The program only calls it on frames of at least two samples. *)
Definition dct_norm (N k : nat) : R :=
  match k with
  | O => sqrt (1 / (4 * INR N))
  | S _ => sqrt (1 / (2 * INR N))
  end.

Definition dct_term (N k : nat) (p : nat * R) : R :=
  (snd p * cos (PI * INR k * (2 * INR (fst p) + 1) / (2 * INR N)))%R.

Definition dct2_ortho (x : list R) : list R :=
  let N := length x in
  map (fun k => dct_norm N k * (2 * Rsum (map (dct_term N k) (combine (seq 0 N) x))))%R
      (seq 0 N).

Definition apply_mdct (audio : list R) (frame_size hop_size sample_rate : Z)
  : result (matrix R) :=
  (* min and max frequencies: unused, but evaluated *)
  d <- truediv 1 sample_rate ;;
  all_freqs <- fftfreq frame_size d ;;
  let freqs := slice all_freqs 0 (frame_size / 2) in
  min_freq <- reduce Qmin freqs ;;
  max_freq <- reduce Qmax freqs ;;
  q <- floordiv (len audio - frame_size) hop_size ;;
  let num_frames := (1 + q)%Z in
  _ <- check_dims [num_frames; frame_size] ;;
  mdct_frames <-
    mapM (fun n =>
            let start := (n * hop_size)%Z in
            let end_ := (start + frame_size)%Z in
            windowed_frame <- multiply (slice audio start end_) (sine_window frame_size) ;;
            assign_row frame_size (dct2_ortho windowed_frame))
         (range num_frames) ;;
  let mdct_out := map (fun row => slice row 0 (frame_size / 2)) mdct_frames in
  Ok mdct_out.

(** ** Color Encoder *)

(** One cell of the HSV array: (hue, saturation, brightness) *)
Definition hsv : Type := (npfloat * npfloat * npfloat)%type.

Definition hue_of (c : hsv) : npfloat := fst (fst c).
Definition saturation_of (c : hsv) : npfloat := snd (fst c).
Definition brightness_of (c : hsv) : npfloat := snd c.

(** [a.shape[1]] *)
Definition shape1 {T : Type} (M : matrix T) : Z :=
  match M with
  | [] => 0%Z
  | row :: _ => len row
  end.

Definition mdct_to_hsv {A : Type} (mdct_array : matrix R)
    (frame_size sample_rate : Z) (saturation : A) : result (matrix hsv) :=
  let abs_mdct := mmap Rabs mdct_array in
  let log_mdct := mmap (fun a => log10 (a + 1)) abs_mdct in
  min_log_value <- amin log_mdct ;;
  max_log_value <- amax log_mdct ;;
  let brightness :=
    mmap (fun l => div (l - min_log_value) (max_log_value - min_log_value)) log_mdct in
  let num_freq_bins := shape1 mdct_array in
  d <- truediv 1 sample_rate ;;
  all_freqs <- fftfreq frame_size d ;;
  let freqs := slice all_freqs 0 num_freq_bins in
  _ <- check_dims [(frame_size / 2)%Z] ;;
  hue <- mapM (fun col =>
                 band <- get_frequency_band col sample_rate frame_size ;;
                 h <- band_to_hue band ;;
                 Ok (Fin (Q2R h)))
              (range (frame_size / 2)) ;;
  let hue := repeat hue (length mdct_array) in
  max_abs_value <- amax (mmap Rabs mdct_array) ;;
  let scaling_factor := div 0.2 max_abs_value in
  let saturation := mmap (fun x => offset 0.8 (scale scaling_factor x)) mdct_array in
  stack3 hue saturation brightness.

(** ** Polar Renderer *)

Definition max_radius : Q := 10.
Definition min_radius : Q := max_radius / 8.
Definition annulus_thickness : Q := (max_radius - min_radius) / 7.

(** [np.linspace(min_radius, max_radius, 8)[::-1]] *)
Definition band_radii : list Q := rev (linspace min_radius max_radius 8).

(** One [pcolormesh] call: the annulus of a band.  The angular grid has
    [num_rows + 1] equally spaced edges on the full circle; only their
    number is recorded.  The conversion of the cells to RGB and the
    rasterisation belong to the plotting library and are not modelled: the
    mesh keeps the HSV cells it is coloured from. *)
Record mesh : Type := {
  mesh_band : Z;
  inner_radius : Q;
  outer_radius : Q;
  band_columns : list Z;
  r_edges : list Q;
  theta_edges : Z;
  band_cells : matrix hsv;
  boundary_line : option Q
}.

(** [a[:, columns, :]] *)
Definition take_columns {T : Type} (M : matrix T) (columns : list Z)
  : result (matrix T) :=
  mapM (fun row => mapM (getitem row) columns) M.

Fixpoint draw_bands (hsv_array : matrix hsv) (bands : list Z) (current_col : Z)
  : result (list mesh) :=
  match bands with
  | [] => Ok []
  | band :: rest =>
      outer <- getitem band_radii band ;;
      inner <- getitem band_radii (band + 1) ;;
      let num_band_columns := band_to_numbins band in
      let columns := range2 current_col (current_col + num_band_columns) in
      let r := linspace inner outer (num_band_columns + 1) in
      cells <- take_columns hsv_array columns ;;
      let m := {| mesh_band := band;
                  inner_radius := inner;
                  outer_radius := outer;
                  band_columns := columns;
                  r_edges := r;
                  theta_edges := len hsv_array + 1;
                  band_cells := cells;
                  boundary_line := if (band <? 6)%Z then Some outer else None |} in
      ms <- draw_bands hsv_array rest (current_col + num_band_columns) ;;
      Ok (m :: ms)
  end.

Definition plot_polar_spectrogram (hsv_array : matrix hsv)
    (frame_size sample_rate : Z) : result (list mesh) :=
  draw_bands hsv_array (range 7) 0.

(** ** Pipeline

    [main] after the audio file has been decoded and trimmed: from the
    waveform and its sample rate to the meshes handed to the plotting
    library. *)
Definition main (audio : list R) (sample_rate : Z) : result (list mesh) :=
  let frame_size := 1024%Z in
  let hop_size := (frame_size / 2)%Z in
  mdct_array <- apply_mdct audio frame_size hop_size sample_rate ;;
  min_value <- amin mdct_array ;;
  max_value <- amax mdct_array ;;
  hsv_array <- mdct_to_hsv mdct_array frame_size sample_rate 1%Z ;;
  plot_polar_spectrogram hsv_array frame_size sample_rate.

(** ** Vocabulary of the specification *)

(** The physical frequency of bin [k]: [k * sr / F] *)
Definition bin_freq (k sr F : Z) : Q := (inject_Z (k * sr) / inject_Z F)%Q.

Definition is_pow2 (F : Z) : Prop := exists e : nat, F = (2 ^ Z.of_nat e)%Z.

(** Number of bins of the half spectrum that the Band Mapper puts in a band *)
Definition count_bins (sr F band : Z) : Z :=
  len (filter (fun k => match get_frequency_band k sr F with
                        | Ok b => (b =? band)%Z
                        | Raise _ => false
                        end)
              (range (F / 2))).

Definition Zsum (l : list Z) : Z := fold_right Z.add 0%Z l.

(** What the renderer's loop assigns to a band: the boundaries [band] and
    [band+1] of the reversed list. *)
Definition band_mesh (band : Z) (m : mesh) : Prop :=
  mesh_band m = band /\
  getitem band_radii band = Ok (outer_radius m) /\
  getitem band_radii (band + 1) = Ok (inner_radius m).

(** The samples [[n*H, n*H+F)] of the waveform, each multiplied by the
    sine window [w[i] = sin(pi * (i + 0.5) / F)] *)
Definition windowed_frame (audio : list R) (F H n : Z) : list R :=
  map (fun i => nth (Z.to_nat (n * H + i)) audio 0 * sin (PI * (IZR i + 0.5) / IZR F))%R
      (range F).

(** A transform matrix for frame size [F]: at least one frame, [F/2] bins
    in every frame, at least one bin. *)
Definition valid_transform (M : matrix R) (F : Z) : Prop :=
  M <> [] /\ (0 < F / 2)%Z /\ Forall (fun row => len row = (F / 2)%Z) M.

(** [L = log10(|M| + 1)], cell by cell *)
Definition log_magnitude (x : R) : R := log10 (Rabs x + 1).

(** [m] is the least (greatest) value of [f] over all cells of the matrix *)
Definition global_min (M : matrix R) (f : R -> R) (m : R) : Prop :=
  (exists r c x, cell M r c = Some x /\ f x = m) /\
  (forall r c x, cell M r c = Some x -> (m <= f x)%R).

Definition global_max (M : matrix R) (f : R -> R) (m : R) : Prop :=
  (exists r c x, cell M r c = Some x /\ f x = m) /\
  (forall r c x, cell M r c = Some x -> (f x <= m)%R).

(** The fixed table band id -> hue of the specification *)
Definition hue_table (band : Z) : option Q :=
  match band with
  | 0%Z => Some 0%Q
  | 1%Z => Some (1 # 10)%Q
  | 2%Z => Some (2 # 10)%Q
  | 3%Z => Some (4 # 10)%Q
  | 4%Z => Some (6 # 10)%Q
  | 5%Z => Some (8 # 10)%Q
  | 6%Z => Some (9 # 10)%Q
  | _ => None
  end.

(** The three channels of one cell of the HSV array *)
Definition hue_at (out : matrix hsv) (r c : nat) : option npfloat :=
  option_map hue_of (cell out r c).
Definition saturation_at (out : matrix hsv) (r c : nat) : option npfloat :=
  option_map saturation_of (cell out r c).
Definition brightness_at (out : matrix hsv) (r c : nat) : option npfloat :=
  option_map brightness_of (cell out r c).

(** The hue that the Color Encoder computes for a column *)
Definition hue_cell (sr F : Z) (col : Z) (h : npfloat) : Prop :=
  exists b q, get_frequency_band col sr F = Ok b /\ band_to_hue b = Ok q /\
              h = Fin (Q2R q).

(** The saturation and brightness formulas of the Color Encoder, given the
    reductions [mx = max|M|], [lo = min(L)] and [hi = max(L)] *)
Definition saturation_cell (mx x : R) : npfloat :=
  offset 0.8 (scale (div 0.2 mx) x).

Definition brightness_cell (lo hi x : R) : npfloat :=
  div (log_magnitude x - lo) (hi - lo).


(** ** Vocabulary for the further properties *)

(** The band of a bin without division: [p = k * sr] is compared with the
    band limits multiplied by the frame size [F > 0]. *)
Definition band_of_product (p F : Z) : Z :=
  if (p <? 0)%Z then 7
  else if (p <? 60 * F)%Z then 0
  else if (p <? 250 * F)%Z then 1
  else if (p <? 500 * F)%Z then 2
  else if (p <? 2000 * F)%Z then 3
  else if (p <? 4000 * F)%Z then 4
  else if (p <? 6000 * F)%Z then 5
  else 6.

(** The first column of a band in the renderer: the bin counts of the
    bands before it, as [current_col] accumulates them *)
Definition band_start (band : Z) : Z := Zsum (map band_to_numbins (range band)).

(** What one pass of the renderer's loop builds for a band whose columns
    start at [start] *)
Definition mesh_of_band (hsv_array : matrix hsv) (band start : Z) (m : mesh) : Prop :=
  mesh_band m = band /\
  band_columns m = range2 start (start + band_to_numbins band) /\
  r_edges m = linspace (inner_radius m) (outer_radius m) (band_to_numbins band + 1) /\
  theta_edges m = (len hsv_array + 1)%Z /\
  take_columns hsv_array (band_columns m) = Ok (band_cells m) /\
  boundary_line m = (if (band <? 6)%Z then Some (outer_radius m) else None).

Fixpoint meshes_from (hsv_array : matrix hsv) (bands : list Z) (start : Z)
    (ms : list mesh) : Prop :=
  match bands, ms with
  | [], [] => True
  | band :: rest, m :: ms' =>
      mesh_of_band hsv_array band start m /\
      meshes_from hsv_array rest (start + band_to_numbins band) ms'
  | _, _ => False
  end.



(** * Properties *)

(** ** Band Mapper *)

Section BandMapper.

Local Open Scope Q_scope.

Lemma is_pow2_pos (F : Z) : is_pow2 F -> (0 < F)%Z.
Proof. intros [e ->]. apply Z.pow_pos_nonneg; lia. Qed.

Lemma bin_freq_nonneg (k sr F : Z) :
  (0 <= k)%Z -> (0 <= sr)%Z -> (0 < F)%Z -> 0 <= bin_freq k sr F.
Proof.
  intros Hk Hsr HF. unfold bin_freq.
  apply Qle_shift_div_l.
  - change 0 with (inject_Z 0). now rewrite <- Zlt_Qlt.
  - rewrite Qmult_0_l. change 0 with (inject_Z 0). rewrite <- Zle_Qle. nia.
Qed.

Lemma Qltb_lt (x y : Q) : Qltb x y = true <-> x < y.
Proof.
  unfold Qltb. rewrite negb_true_iff, <- not_true_iff_false, Qle_bool_iff.
  split; [apply Qnot_le_lt | apply Qlt_not_le].
Qed.

Ltac decide_tests :=
  repeat match goal with
    | |- context [Qle_bool ?a ?b] =>
        let E := fresh "E" in
        destruct (Qle_bool a b) eqn:E;
        [ apply Qle_bool_iff in E
        | apply not_true_iff_false in E; rewrite Qle_bool_iff in E ]
    end.

(** The band of a bin of non-negative frequency is the one whose range
    holds the frequency; the sentinel is not returned. *)
Lemma get_frequency_band_ranges (k sr F : Z) :
  (F <> 0)%Z -> 0 <= bin_freq k sr F ->
  exists b : Z,
    get_frequency_band k sr F = Ok b /\
    (0 <= b <= 6)%Z /\
    (b = 0%Z <-> 0 <= bin_freq k sr F /\ bin_freq k sr F < 60) /\
    (b = 1%Z <-> 60 <= bin_freq k sr F /\ bin_freq k sr F < 250) /\
    (b = 2%Z <-> 250 <= bin_freq k sr F /\ bin_freq k sr F < 500) /\
    (b = 3%Z <-> 500 <= bin_freq k sr F /\ bin_freq k sr F < 2000) /\
    (b = 4%Z <-> 2000 <= bin_freq k sr F /\ bin_freq k sr F < 4000) /\
    (b = 5%Z <-> 4000 <= bin_freq k sr F /\ bin_freq k sr F < 6000) /\
    (b = 6%Z <-> 6000 <= bin_freq k sr F).
Proof.
  intros HF Hnn. unfold get_frequency_band, truediv.
  apply Z.eqb_neq in HF. rewrite HF. cbn [bind].
  fold (bin_freq k sr F). set (freq := bin_freq k sr F) in *.
  unfold Qltb. decide_tests; cbn [negb andb];
    try (exfalso; lra);
    eexists; (split; [reflexivity|]);
    (split; [lia|]);
    repeat split; intros; try lia; try lra;
    try match goal with H : _ /\ _ |- _ => destruct H end; exfalso; lra.
Qed.

(** C6. For a frame size [F] that is a positive power of two, a sample
    rate [sr > 0] and a bin index [k] in [[0, F/2)], the Band Mapper
    returns one band id in 0..6, the one whose half-open range contains
    [freq = k * sr / F]; it does not return the sentinel 7. *)
Theorem get_frequency_band_valid (F sr k : Z) :
  is_pow2 F -> (0 < sr)%Z -> (0 <= k < F / 2)%Z ->
  exists b : Z,
    get_frequency_band k sr F = Ok b /\
    (0 <= b <= 6)%Z /\ b <> 7%Z /\
    (b = 0%Z <-> 0 <= bin_freq k sr F /\ bin_freq k sr F < 60) /\
    (b = 1%Z <-> 60 <= bin_freq k sr F /\ bin_freq k sr F < 250) /\
    (b = 2%Z <-> 250 <= bin_freq k sr F /\ bin_freq k sr F < 500) /\
    (b = 3%Z <-> 500 <= bin_freq k sr F /\ bin_freq k sr F < 2000) /\
    (b = 4%Z <-> 2000 <= bin_freq k sr F /\ bin_freq k sr F < 4000) /\
    (b = 5%Z <-> 4000 <= bin_freq k sr F /\ bin_freq k sr F < 6000) /\
    (b = 6%Z <-> 6000 <= bin_freq k sr F).
Proof.
  intros Hp Hsr Hk. pose proof (is_pow2_pos Hp) as HF.
  destruct (@get_frequency_band_ranges k sr F) as (b & Hb & Hr & Hrest).
  - lia.
  - apply bin_freq_nonneg; lia.
  - exists b. repeat split; try tauto; try lia.
Qed.

End BandMapper.

(** C8. The per-band bin counts are 2, 4, 5, 32, 43, 42 and 384; over the
    seven bands they sum to 512, half of the configured frame size 1024. *)
Theorem band_to_numbins_sum :
  map band_to_numbins (range 7) = [2; 4; 5; 32; 43; 42; 384]%Z /\
  Zsum (map band_to_numbins (range 7)) = 512%Z /\
  Zsum (map band_to_numbins (range 7)) = (1024 / 2)%Z.
Proof. repeat split. Qed.

(** The table is the Band Mapper's partition of the 512 bins at 48 kHz ... *)
Lemma band_to_numbins_48000 :
  map (count_bins 48000 1024) (range 7) = map band_to_numbins (range 7).
Proof. vm_compute. reflexivity. Qed.

(** ... but not at 44.1 kHz, where the low midrange has six bins. *)
Lemma band_to_numbins_44100 :
  map (count_bins 44100 1024) (range 7) = [2; 4; 6; 35; 46; 47; 372]%Z.
Proof. vm_compute. reflexivity. Qed.

(** Any band id outside 0..6 has no bins. *)
Lemma band_to_numbins_out_of_range (band : Z) :
  (band < 0 \/ 6 < band)%Z -> band_to_numbins band = 0%Z.
Proof.
  intros H. unfold band_to_numbins.
  repeat match goal with
         | |- context [(band =? ?c)%Z] => destruct (Z.eqb_spec band c); [lia|]
         end.
  reflexivity.
Qed.

(** ** Result monad *)

Lemma bind_Ok {A B : Type} (c : result A) (k : A -> result B) (b : B) :
  bind c k = Ok b -> exists a, c = Ok a /\ k a = Ok b.
Proof. destruct c as [a|e]; cbn; [eauto | discriminate]. Qed.

Ltac inv_bind H :=
  let x := fresh "x" in
  let Hx := fresh "Hx" in
  apply bind_Ok in H; destruct H as (x & Hx & H).

(** ** Polar Renderer *)

Section PolarRenderer.

Local Open Scope Q_scope.

Variable hsv_array : matrix hsv.

Lemma draw_bands_meshes (bands : list Z) :
  forall (col : Z) (ms : list mesh),
    draw_bands hsv_array bands col = Ok ms -> Forall2 band_mesh bands ms.
Proof.
  induction bands as [|band rest IH]; intros col ms H; cbn [draw_bands] in H.
  - injection H as <-. constructor.
  - inv_bind H. inv_bind H. inv_bind H. inv_bind H.
    injection H as <-. constructor; [|eauto].
    repeat split; assumption.
Qed.

Lemma band_radii_values :
  forall i : Z, (0 <= i < 8)%Z ->
    exists r, getitem band_radii i = Ok r /\
              r == max_radius - inject_Z i * ((max_radius - min_radius) / 7).
Proof.
  intros i Hi.
  assert (i = 0 \/ i = 1 \/ i = 2 \/ i = 3 \/ i = 4 \/ i = 5 \/ i = 6 \/ i = 7)%Z
    as Hc by lia.
  repeat (destruct Hc as [-> | Hc]); [ .. | subst i];
    (eexists; split; [vm_compute; reflexivity | vm_compute; reflexivity]).
Qed.

Ltac eval_radius H :=
  match type of H with
  | getitem band_radii ?c = _ =>
      let v := eval vm_compute in (getitem band_radii c) in
      change (getitem band_radii c) with v in H; injection H as H
  end.

(** C9. The renderer uses 8 equally spaced boundary radii between
    [min_radius] and [max_radius], in reverse order; band [b] is drawn
    between boundaries [b+1] and [b], so band 0 is the outermost annulus,
    band 6 the innermost, and every band lies strictly outside the next
    one. *)
Theorem polar_band_annuli (frame_size sample_rate : Z) (ms : list mesh) :
  plot_polar_spectrogram hsv_array frame_size sample_rate = Ok ms ->
  length band_radii = 8%nat /\
  (forall i : Z, (0 <= i < 8)%Z ->
     exists r, getitem band_radii i = Ok r /\
               r == max_radius - inject_Z i * ((max_radius - min_radius) / 7)) /\
  Forall2 band_mesh (range 7) ms /\
  (forall m m' : mesh, In m ms -> In m' ms ->
     (mesh_band m < mesh_band m')%Z ->
     inner_radius m' < outer_radius m' /\
     outer_radius m' <= inner_radius m /\
     inner_radius m < outer_radius m) /\
  (exists m0, nth_error ms 0 = Some m0 /\
              mesh_band m0 = 0%Z /\ outer_radius m0 == max_radius) /\
  (exists m6, nth_error ms 6 = Some m6 /\
              mesh_band m6 = 6%Z /\ inner_radius m6 == min_radius).
Proof.
  intros H. unfold plot_polar_spectrogram in H.
  apply draw_bands_meshes in H.
  split; [reflexivity|]. split; [exact band_radii_values|].
  split; [exact H|].
  change (range 7) with [0; 1; 2; 3; 4; 5; 6]%Z in H.
  repeat match goal with
         | H : Forall2 _ (_ :: _) _ |- _ => inversion H; subst; clear H
         | H : Forall2 _ [] _ |- _ => inversion H; subst; clear H
         end.
  repeat match goal with
         | H : band_mesh _ _ |- _ =>
             let Hb := fresh "Hb" in
             let Ho := fresh "Ho" in
             let Hi := fresh "Hi" in
             destruct H as (Hb & Ho & Hi);
             eval_radius Ho; eval_radius Hi
         end.
  split; [|split].
  - intros m m' Hm Hm' Hlt. cbn [In] in Hm, Hm'.
    repeat (destruct Hm as [<- | Hm]); try contradiction;
      repeat (destruct Hm' as [<- | Hm']); try contradiction;
      try (exfalso; lia);
      repeat match goal with
             | H : _ = outer_radius _ |- _ => rewrite <- H; clear H
             | H : _ = inner_radius _ |- _ => rewrite <- H; clear H
             end;
      repeat split; vm_compute; congruence.
  - eexists. split; [reflexivity|]. split; [assumption|].
    rewrite <- Ho5. reflexivity.
  - eexists. split; [reflexivity|]. split; [assumption|].
    rewrite <- Hi. reflexivity.
Qed.

End PolarRenderer.

(** ** Lists, ranges and slices *)

Section Lists.

Context {A B : Type}.

Lemma length_range (n : Z) : length (range n) = Z.to_nat n.
Proof. unfold range. now rewrite length_map, length_seq. Qed.

Lemma In_range (n i : Z) : In i (range n) <-> (0 <= i < n)%Z.
Proof.
  unfold range. rewrite in_map_iff. split.
  - intros (k & <- & Hk). apply in_seq in Hk. lia.
  - intros H. exists (Z.to_nat i). split; [lia|]. apply in_seq. lia.
Qed.

Lemma nth_error_range (n : Z) (i : nat) :
  (Z.of_nat i < n)%Z -> nth_error (range n) i = Some (Z.of_nat i).
Proof.
  intros H. unfold range. rewrite nth_error_map, nth_error_seq.
  destruct (Nat.ltb_spec i (Z.to_nat n)); [reflexivity | lia].
Qed.

Lemma In_range2 (a b i : Z) : In i (range2 a b) <-> (a <= i < b)%Z.
Proof.
  unfold range2. rewrite in_map_iff. split.
  - intros (k & <- & Hk). apply In_range in Hk. lia.
  - intros H. exists (i - a)%Z. split; [lia|]. apply In_range. lia.
Qed.

Lemma slice_prefix (l : list A) (k : Z) :
  (0 <= k)%Z -> slice l 0 k = firstn (Z.to_nat k) l.
Proof.
  intros Hk. unfold slice, slice_index, len.
  replace (0 <? 0)%Z with false by reflexivity.
  destruct (Z.ltb_spec k 0); [lia|].
  rewrite (Z.min_l 0) by lia. cbn [Z.to_nat skipn]. rewrite Z.sub_0_r.
  destruct (Z.le_ge_cases k (Z.of_nat (length l))).
  - now rewrite Z.min_l by lia.
  - rewrite Z.min_r by lia. rewrite Nat2Z.id.
    rewrite !firstn_all2; auto; lia.
Qed.

Lemma slice_inside (l : list A) (s e : Z) :
  (0 <= s <= e)%Z -> (e <= len l)%Z ->
  slice l s e = firstn (Z.to_nat (e - s)) (skipn (Z.to_nat s) l).
Proof.
  intros Hs He. unfold slice, slice_index.
  destruct (Z.ltb_spec s 0); [lia|]. destruct (Z.ltb_spec e 0); [lia|].
  now rewrite !Z.min_l by lia.
Qed.

Lemma firstn_skipn_seq (l : list A) (d : A) (s k : nat) :
  (s + k <= length l)%nat ->
  firstn k (skipn s l) = map (fun i => nth (s + i) l d) (seq 0 k).
Proof.
  intros H. apply nth_error_ext. intros i.
  rewrite nth_error_firstn, nth_error_skipn, nth_error_map, nth_error_seq.
  destruct (Nat.ltb_spec i k); [|reflexivity].
  cbn [option_map]. apply nth_error_nth'. lia.
Qed.


Lemma map_combine_map {C D : Type} (f : A -> B) (g : A -> C) (h : B * C -> D)
    (l : list A) :
  map h (combine (map f l) (map g l)) = map (fun x => h (f x, g x)) l.
Proof. induction l as [|x l IH]; cbn; [reflexivity | now rewrite IH]. Qed.

Lemma mapM_Ok_map (f : A -> result B) (g : A -> B) (l : list A) :
  (forall x, In x l -> f x = Ok (g x)) -> mapM f l = Ok (map g l).
Proof.
  induction l as [|x l IH]; intros H; cbn [mapM map]; [reflexivity|].
  rewrite H by now left. cbn [bind].
  rewrite IH by (intros; apply H; now right). reflexivity.
Qed.

Lemma mapM_Forall2 (f : A -> result B) (l : list A) :
  forall ys, mapM f l = Ok ys -> Forall2 (fun x y => f x = Ok y) l ys.
Proof.
  induction l as [|x l IH]; intros ys H; cbn [mapM] in H.
  - injection H as <-. constructor.
  - inv_bind H. inv_bind H. injection H as <-. constructor; auto.
Qed.

Lemma mapM_exists (f : A -> result B) (l : list A) :
  (forall x, In x l -> exists y, f x = Ok y) -> exists ys, mapM f l = Ok ys.
Proof.
  induction l as [|x l IH]; intros H; cbn [mapM]; [eauto|].
  destruct (H x) as [y Hy]; [now left|]. rewrite Hy. cbn [bind].
  destruct IH as [ys Hys]; [intros; apply H; now right|].
  rewrite Hys. cbn [bind]. eauto.
Qed.

Lemma reduce_nonempty (op : A -> A -> A) (l : list A) :
  l <> [] -> exists m, reduce op l = Ok m.
Proof. destruct l; [congruence | cbn; eauto]. Qed.

Lemma getitem_inside (l : list A) (i : Z) :
  (0 <= i < len l)%Z -> exists x, getitem l i = Ok x /\ nth_error l (Z.to_nat i) = Some x.
Proof.
  intros H. unfold getitem. destruct (Z.ltb_spec i 0); [lia|].
  destruct (Z.ltb_spec i 0); [lia|].
  destruct (nth_error l (Z.to_nat i)) as [x|] eqn:E; [eauto|].
  apply nth_error_None in E. unfold len in H. lia.
Qed.

End Lists.

(** ** Framer/Transformer *)

Section Framer.

Local Open Scope Z_scope.

Lemma truediv_one (sr : Z) :
  sr <> 0 -> truediv 1 sr = Ok (inject_Z 1 / inject_Z sr)%Q.
Proof. intros H. unfold truediv. apply Z.eqb_neq in H. now rewrite H. Qed.

(** With a frame size of at least one sample and a non-zero sample rate,
    the frequency grid is computed without error and has [F] points. *)
Lemma fftfreq_rate (F sr : Z) :
  1 <= F -> sr <> 0 ->
  exists fs, fftfreq F (inject_Z 1 / inject_Z sr)%Q = Ok fs /\ len fs = F.
Proof.
  intros HF Hsr. unfold fftfreq.
  assert (Qeq_bool (inject_Z F * (inject_Z 1 / inject_Z sr)) 0 = false) as ->.
  { apply not_true_iff_false. rewrite Qeq_bool_iff.
    unfold Qeq, Qdiv, Qmult, Qinv, inject_Z. destruct sr; cbn; [congruence|lia|lia]. }
  unfold check_dims. cbn [forallb].
  destruct (Z.leb_spec 0 F); [|lia]. cbn [andb bind].
  eexists. split; [reflexivity|].
  unfold len, range2. rewrite length_map, length_app, !length_map, !length_range.
  Z.to_euclidean_division_equations. lia.
Qed.

Lemma frequency_grid_ok (F sr : Z) (k : Z) :
  1 <= F -> sr <> 0 ->
  exists fs, fftfreq F (inject_Z 1 / inject_Z sr)%Q = Ok fs /\
             (1 <= k -> slice fs 0 k <> []).
Proof.
  intros HF Hsr. destruct (fftfreq_rate HF Hsr) as (fs & Hfs & Hlen).
  exists fs. split; [assumption|]. intros Hk.
  rewrite slice_prefix by lia. intros E.
  apply (f_equal (@length Q)) in E. rewrite length_firstn in E.
  unfold len in Hlen. cbn in E. lia.
Qed.

Lemma length_sine_window (F : Z) : length (sine_window F) = Z.to_nat F.
Proof. unfold sine_window. now rewrite length_map, length_range. Qed.

Lemma length_dct2_ortho (x : list R) : length (dct2_ortho x) = length x.
Proof. unfold dct2_ortho. now rewrite length_map, length_seq. Qed.

Lemma length_windowed_frame (audio : list R) (F H n : Z) :
  length (windowed_frame audio F H n) = Z.to_nat F.
Proof. unfold windowed_frame. now rewrite length_map, length_range. Qed.

(** A frame that lies inside the waveform: the slice has [F] samples and
    its product with the window is the windowed frame. *)
Lemma multiply_frame (audio : list R) (F H n : Z) :
  0 <= n * H -> 0 <= F -> n * H + F <= len audio ->
  multiply (slice audio (n * H) (n * H + F)) (sine_window F)
  = Ok (windowed_frame audio F H n).
Proof.
  intros Hs HF He. rewrite slice_inside by lia.
  replace (n * H + F - n * H) with F by lia.
  rewrite (@firstn_skipn_seq _ audio 0%R) by (unfold len in He; lia).
  unfold multiply. rewrite length_map, length_seq, length_sine_window, Nat.eqb_refl.
  f_equal. unfold sine_window, windowed_frame, range.
  rewrite !map_map.
  rewrite (map_combine_map (fun i => nth (Z.to_nat (n * H) + i) audio 0%R)
             (fun i => sin (PI * (IZR (Z.of_nat i) + 0.5) / IZR F))%R
             (fun p => fst p * snd p)%R).
  apply map_ext. intros i. cbn [fst snd].
  now replace (Z.to_nat (n * H + Z.of_nat i)) with (Z.to_nat (n * H) + i)%nat by lia.
Qed.

Lemma assign_row_exact (F : Z) (v : list R) : len v = F -> assign_row F v = Ok v.
Proof. intros H. unfold assign_row. apply Z.eqb_eq in H. now rewrite H. Qed.

Variables (audio : list R) (F H sr : Z).
Hypothesis HF : 2 <= F.
Hypothesis HH : 0 < H.
Hypothesis Hsr : sr <> 0.

(** The part of [apply_mdct] before the frame count never raises for such
    parameters. *)
Lemma apply_mdct_unfold :
  apply_mdct audio F H sr =
  (let num_frames := 1 + (len audio - F) / H in
   _ <- check_dims [num_frames; F] ;;
   mdct_frames <-
     mapM (fun n =>
             windowed_frame <- multiply (slice audio (n * H) (n * H + F)) (sine_window F) ;;
             assign_row F (dct2_ortho windowed_frame))
          (range num_frames) ;;
   Ok (map (fun row => slice row 0 (F / 2)) mdct_frames)).
Proof.
  unfold apply_mdct. rewrite truediv_one by assumption. cbn [bind].
  destruct (@frequency_grid_ok F sr (F / 2)) as (fs & -> & Hne); [lia|assumption|].
  cbn [bind].
  assert (1 <= F / 2) as H2 by (apply Z.div_le_lower_bound; lia).
  specialize (Hne H2).
  destruct (reduce_nonempty Qmin Hne) as [lo ->].
  destruct (reduce_nonempty Qmax Hne) as [hi ->]. cbn [bind].
  unfold floordiv. destruct (Z.eqb_spec H 0); [lia|]. reflexivity.
Qed.

Lemma frame_inside (n : Z) :
  F <= len audio -> 0 <= n < 1 + (len audio - F) / H ->
  0 <= n * H /\ n * H + F <= len audio.
Proof.
  intros HN Hn.
  assert (H * ((len audio - F) / H) <= len audio - F) by (apply Z.mul_div_le; lia).
  nia.
Qed.

(** The transform matrix of a waveform of at least one frame. *)
Lemma apply_mdct_frames :
  F <= len audio ->
  apply_mdct audio F H sr
  = Ok (map (fun n => firstn (Z.to_nat (F / 2)) (dct2_ortho (windowed_frame audio F H n)))
            (range (1 + (len audio - F) / H))).
Proof.
  intros HN. rewrite apply_mdct_unfold. cbv zeta.
  assert (0 <= (len audio - F) / H) by (apply Z.div_pos; lia).
  unfold check_dims. cbn [forallb].
  destruct (Z.leb_spec 0 (1 + (len audio - F) / H)); [|lia].
  destruct (Z.leb_spec 0 F); [|lia]. cbn [andb bind].
  rewrite (mapM_Ok_map _ (fun n => dct2_ortho (windowed_frame audio F H n))).
  - cbn [bind]. rewrite map_map. f_equal. apply map_ext. intros n.
    apply slice_prefix. apply Z.div_pos; lia.
  - intros n Hn. apply In_range in Hn.
    destruct (frame_inside HN Hn) as [Hs He].
    rewrite multiply_frame by lia. cbn [bind].
    apply assign_row_exact. unfold len.
    rewrite length_dct2_ortho, length_windowed_frame. lia.
Qed.

(** Less than a frame, but at least [F - H] samples: zero frames, and an
    empty matrix is returned without any error. *)
Lemma apply_mdct_short_empty :
  F - H <= len audio < F -> apply_mdct audio F H sr = Ok [].
Proof.
  intros HN. rewrite apply_mdct_unfold. cbv zeta.
  assert ((len audio - F) / H = -1) as ->.
  { symmetry. apply Z.div_unique with (r := len audio - F + H); lia. }
  replace (1 + -1) with 0 by lia.
  unfold check_dims. cbn [forallb].
  destruct (Z.leb_spec 0 F); [|lia]. reflexivity.
Qed.

(** Fewer than [F - H] samples: the frame count is negative and the
    allocation of the work array raises. *)
Lemma apply_mdct_short_raises :
  len audio < F - H -> apply_mdct audio F H sr = Raise ValueError.
Proof.
  intros HN. rewrite apply_mdct_unfold. cbv zeta.
  assert ((len audio - F) / H < -1).
  { apply Z.div_lt_upper_bound; lia. }
  unfold check_dims. cbn [forallb].
  destruct (Z.leb_spec 0 (1 + (len audio - F) / H)); [lia|]. reflexivity.
Qed.

End Framer.

(** C1. For a waveform of [N >= F] samples, frame size [F] and hop size
    [H = F/2], [apply_mdct] returns a matrix of [1 + floor((N - F) / H)]
    rows and [F/2] columns; row [n] holds the first [F/2] coefficients of
    the orthonormal DCT-II of the samples [[n*H, n*H+F)] multiplied by the
    sine window. *)
Theorem apply_mdct_shape_and_rows (audio : list R) (F sr : Z) :
  (0 < F / 2)%Z -> sr <> 0%Z -> (F <= len audio)%Z ->
  exists M : matrix R,
    apply_mdct audio F (F / 2) sr = Ok M /\
    len M = (1 + (len audio - F) / (F / 2))%Z /\
    (forall row, In row M -> len row = (F / 2)%Z) /\
    (forall n : Z, (0 <= n < len M)%Z ->
       nth_error M (Z.to_nat n)
       = Some (firstn (Z.to_nat (F / 2))
                 (dct2_ortho (windowed_frame audio F (F / 2) n)))).
Proof.
  intros HH Hsr HN.
  assert (2 <= F)%Z as HF by (Z.to_euclidean_division_equations; lia).
  assert (0 <= (len audio - F) / (F / 2))%Z by (apply Z.div_pos; lia).
  eexists. split; [apply apply_mdct_frames; lia|].
  split; [|split].
  - unfold len at 1. rewrite length_map, length_range. lia.
  - intros row Hrow. apply in_map_iff in Hrow. destruct Hrow as (n & <- & _).
    unfold len. rewrite length_firstn, length_dct2_ortho, length_windowed_frame.
    Z.to_euclidean_division_equations. lia.
  - intros n Hn. unfold len in *. rewrite length_map, length_range in Hn.
    rewrite nth_error_map, nth_error_range by lia.
    cbn [option_map]. now rewrite Z2Nat.id by lia.
Qed.

Lemma apply_mdct_shape_and_rows_witness :
  exists M : matrix R,
    apply_mdct [1; 2; 3; 4; 5; 6; 7]%R 4 (4 / 2) 44100 = Ok M /\
    len M = (1 + (len [1; 2; 3; 4; 5; 6; 7]%R - 4) / (4 / 2))%Z /\
    (forall row, In row M -> len row = (4 / 2)%Z) /\
    (forall n : Z, (0 <= n < len M)%Z ->
       nth_error M (Z.to_nat n)
       = Some (firstn (Z.to_nat (4 / 2))
                 (dct2_ortho (windowed_frame [1; 2; 3; 4; 5; 6; 7]%R 4 (4 / 2) n)))).
Proof.
  apply (@apply_mdct_shape_and_rows [1; 2; 3; 4; 5; 6; 7]%R 4 44100);
    [reflexivity | discriminate | discriminate].
Defined.

(** ** Input shorter than one frame *)

Lemma main_unfold (audio : list R) (sample_rate : Z) :
  main audio sample_rate =
  (mdct_array <- apply_mdct audio 1024 512 sample_rate ;;
   min_value <- amin mdct_array ;;
   max_value <- amax mdct_array ;;
   hsv_array <- mdct_to_hsv mdct_array 1024 sample_rate 1%Z ;;
   plot_polar_spectrogram hsv_array 1024 sample_rate).
Proof. reflexivity. Qed.

(** C3, as the code has it. For every waveform shorter than one frame the
    pipeline (frame size 1024, hop size 512) ends with an exception and
    draws nothing; the exception is a ValueError when the sample rate is
    not zero.  With fewer than [F - H = 512] samples it is raised by
    [apply_mdct] (negative frame count); with 512 to 1023 samples
    [apply_mdct] returns an empty matrix without error, and the exception
    comes from the minimum that [main] takes of it. *)
Theorem main_short_input (audio : list R) (sample_rate : Z) :
  (len audio < 1024)%Z ->
  (exists e, main audio sample_rate = Raise e) /\
  (sample_rate <> 0%Z -> main audio sample_rate = Raise ValueError) /\
  (sample_rate <> 0%Z -> (len audio < 512)%Z ->
     apply_mdct audio 1024 512 sample_rate = Raise ValueError) /\
  (sample_rate <> 0%Z -> (512 <= len audio)%Z ->
     apply_mdct audio 1024 512 sample_rate = Ok [] /\ amin [] = Raise ValueError).
Proof.
  intros HN.
  assert (sample_rate <> 0%Z -> main audio sample_rate = Raise ValueError) as Hmain.
  { intros Hsr. rewrite main_unfold.
    destruct (Z.lt_ge_cases (len audio) 512).
    - rewrite apply_mdct_short_raises by lia. reflexivity.
    - rewrite apply_mdct_short_empty by lia. reflexivity. }
  split; [|split; [exact Hmain|split]].
  - destruct (Z.eq_dec sample_rate 0) as [->|Hsr]; [|eauto].
    exists ZeroDivisionError. reflexivity.
  - intros Hsr Hlt. apply apply_mdct_short_raises; lia.
  - intros Hsr Hge. split; [apply apply_mdct_short_empty; lia | reflexivity].
Qed.

Lemma main_short_input_witness :
  (exists e, main [1; 2; 3]%R 44100 = Raise e) /\
  (44100%Z <> 0%Z -> main [1; 2; 3]%R 44100 = Raise ValueError) /\
  (44100%Z <> 0%Z -> (len [1; 2; 3]%R < 512)%Z ->
     apply_mdct [1; 2; 3]%R 1024 512 44100 = Raise ValueError) /\
  (44100%Z <> 0%Z -> (512 <= len [1; 2; 3]%R)%Z ->
     apply_mdct [1; 2; 3]%R 1024 512 44100 = Ok [] /\ amin [] = Raise ValueError).
Proof. apply (@main_short_input [1; 2; 3]%R 44100). reflexivity. Defined.

(** A waveform of 512 samples is shorter than the frame size 1024, and the
    Framer returns an empty transform matrix for it instead of raising. *)
Lemma short_waveform_empty_matrix :
  (len (repeat 1%R 512) < 1024)%Z /\
  apply_mdct (repeat 1%R 512) 1024 (1024 / 2) 44100 = Ok [] /\
  ~ (exists e, apply_mdct (repeat 1%R 512) 1024 (1024 / 2) 44100 = Raise e).
Proof.
  assert (len (repeat 1%R 512) = 512%Z) as Hlen
      by (unfold len; rewrite repeat_length; reflexivity).
  assert (apply_mdct (repeat 1%R 512) 1024 (1024 / 2) 44100 = Ok []) as E.
  { change (1024 / 2)%Z with 512%Z. apply apply_mdct_short_empty; lia. }
  split; [lia|]. split; [exact E|].
  intros [e He]. rewrite E in He. discriminate.
Qed.

(** ** Arrays and reductions *)

Section Arrays.

Context {A B : Type}.

Lemma cell_mmap (f : A -> B) (M : matrix A) (r c : nat) :
  cell (mmap f M) r c = option_map f (cell M r c).
Proof.
  unfold cell, mmap. rewrite nth_error_map.
  destruct (nth_error M r); cbn [option_map]; [apply nth_error_map | reflexivity].
Qed.

Lemma cell_repeat (row : list A) (k r c : nat) :
  cell (repeat row k) r c = if (r <? k)%nat then nth_error row c else None.
Proof.
  unfold cell. destruct (Nat.ltb_spec r k).
  - now rewrite nth_error_repeat.
  - assert (nth_error (repeat row k) r = None) as ->; [|reflexivity].
    apply nth_error_None. now rewrite repeat_length.
Qed.

Lemma In_concat_cell (M : matrix A) (x : A) :
  In x (concat M) <-> exists r c, cell M r c = Some x.
Proof.
  rewrite in_concat. unfold cell. split.
  - intros (row & Hrow & Hx).
    apply In_nth_error in Hrow. destruct Hrow as [r Hr].
    apply In_nth_error in Hx. destruct Hx as [c Hc].
    exists r, c. now rewrite Hr.
  - intros (r & c & H). destruct (nth_error M r) as [row|] eqn:Hr; [|discriminate].
    exists row. split; eauto using nth_error_In.
Qed.

Lemma nth_error_combine (a : list A) (b : list B) :
  forall n, nth_error (combine a b) n =
            match nth_error a n, nth_error b n with
            | Some x, Some y => Some (x, y)
            | _, _ => None
            end.
Proof.
  revert b. induction a as [|x a IH]; intros [|y b] [|n]; cbn; try reflexivity.
  - now destruct (nth_error a n).
  - apply IH.
Qed.

Lemma Forall2_nth_error_r (P : A -> B -> Prop) (l : list A) (l' : list B) :
  Forall2 P l l' ->
  forall n y, nth_error l' n = Some y -> exists x, nth_error l n = Some x /\ P x y.
Proof.
  induction 1 as [|x y l l' Hxy _ IH]; intros [|n] z Hz; cbn in *; try discriminate.
  - injection Hz as <-. eauto.
  - eauto.
Qed.

Lemma Forall2_length_eq (P : A -> B -> Prop) (l : list A) (l' : list B) :
  Forall2 P l l' -> length l = length l'.
Proof. induction 1; cbn; congruence. Qed.

Lemma shape_mmap (f : A -> B) (M : matrix A) : shape (mmap f M) = shape M.
Proof.
  unfold shape, mmap. rewrite map_map. apply map_ext. intros; apply length_map.
Qed.

Lemma shape_repeat (row : list A) (k : nat) :
  shape (repeat row k) = repeat (length row) k.
Proof. unfold shape. apply map_repeat. Qed.

Lemma shape_uniform (M : matrix A) (w : nat) :
  Forall (fun row => length row = w) M -> shape M = repeat w (length M).
Proof.
  unfold shape. induction 1 as [|row M Hrow _ IH]; cbn; [reflexivity|].
  now rewrite Hrow, IH.
Qed.

End Arrays.

Lemma stack3_cell {T : Type} (h s v : matrix T) (out : matrix (T * T * T)) :
  stack3 h s v = Ok out ->
  forall r c, cell out r c =
              match cell h r c, cell s r c, cell v r c with
              | Some x, Some y, Some z => Some (x, y, z)
              | _, _, _ => None
              end.
Proof.
  unfold stack3. intros H r c.
  destruct (list_eq_dec Nat.eq_dec (shape h) (shape s)); [|discriminate].
  destruct (list_eq_dec Nat.eq_dec (shape s) (shape v)); [|discriminate].
  injection H as <-. unfold cell, zip3.
  rewrite nth_error_map, !nth_error_combine.
  destruct (nth_error h r) as [hr|], (nth_error s r) as [sr|],
           (nth_error v r) as [vr|]; cbn [option_map fst snd];
    rewrite ?nth_error_combine;
    repeat match goal with
           | |- context [match nth_error ?l c with _ => _ end] =>
               destruct (nth_error l c)
           end;
    reflexivity.
Qed.

(** A reduction by a selecting operator ([min], [max]) returns an element
    that is below every element in the order the operator selects by. *)
Section Reductions.

Variable op : R -> R -> R.
Variable le : R -> R -> Prop.
Hypothesis le_refl : forall a, le a a.
Hypothesis le_trans : forall a b c, le a b -> le b c -> le a c.
Hypothesis op_l : forall a b, le (op a b) a.
Hypothesis op_r : forall a b, le (op a b) b.
Hypothesis op_sel : forall a b, op a b = a \/ op a b = b.

Lemma fold_left_sel_init (xs : list R) : forall x, le (fold_left op xs x) x.
Proof.
  induction xs as [|a xs IH]; intros x; cbn [fold_left]; [apply le_refl|].
  eapply le_trans; [apply IH | apply op_l].
Qed.

Lemma fold_left_sel_bound (xs : list R) :
  forall x y, In y (x :: xs) -> le (fold_left op xs x) y.
Proof.
  induction xs as [|a xs IH]; intros x y Hy; cbn [fold_left].
  - destruct Hy as [<-|[]]. apply le_refl.
  - destruct Hy as [<-|[<-|Hy]].
    + eapply le_trans; [apply fold_left_sel_init | apply op_l].
    + eapply le_trans; [apply fold_left_sel_init | apply op_r].
    + apply IH. now right.
Qed.

Lemma fold_left_sel_In (xs : list R) : forall x, In (fold_left op xs x) (x :: xs).
Proof.
  induction xs as [|a xs IH]; intros x; cbn [fold_left]; [now left|].
  destruct (IH (op x a)) as [E|Hin].
  - rewrite <- E. destruct (op_sel x a) as [->| ->]; [now left | right; now left].
  - right; now right.
Qed.

Lemma reduce_sel (M : matrix R) (m : R) :
  reduce op (concat M) = Ok m ->
  (exists r c, cell M r c = Some m) /\
  (forall r c x, cell M r c = Some x -> le m x).
Proof.
  unfold reduce. destruct (concat M) as [|x xs] eqn:E; [discriminate|].
  intros H. injection H as <-. split.
  - apply In_concat_cell. rewrite E. apply fold_left_sel_In.
  - intros r c y Hy. apply fold_left_sel_bound. rewrite <- E.
    apply In_concat_cell. eauto.
Qed.

End Reductions.

Lemma amin_spec (M : matrix R) (m : R) :
  amin M = Ok m ->
  (exists r c, cell M r c = Some m) /\
  (forall r c x, cell M r c = Some x -> (m <= x)%R).
Proof.
  apply (@reduce_sel Rmin Rle); intros.
  - apply Rle_refl.
  - eapply Rle_trans; eauto.
  - apply Rbasic_fun.Rmin_l.
  - apply Rbasic_fun.Rmin_r.
  - apply Rmin_case; auto.
Qed.

Lemma amax_spec (M : matrix R) (m : R) :
  amax M = Ok m ->
  (exists r c, cell M r c = Some m) /\
  (forall r c x, cell M r c = Some x -> (x <= m)%R).
Proof.
  apply (@reduce_sel Rmax (fun a b => (b <= a)%R)); intros.
  - apply Rle_refl.
  - eapply Rle_trans; eauto.
  - apply Rbasic_fun.Rmax_l.
  - apply Rbasic_fun.Rmax_r.
  - apply Rmax_case; auto.
Qed.

(** ** Color Encoder *)

Lemma mmap_log_magnitude (M : matrix R) :
  mmap (fun a => log10 (a + 1)) (mmap Rabs M) = mmap log_magnitude M.
Proof.
  unfold mmap. rewrite map_map. apply map_ext. intros row.
  rewrite map_map. reflexivity.
Qed.

Lemma get_frequency_band_codomain (k sr F b : Z) :
  get_frequency_band k sr F = Ok b -> (0 <= b <= 7)%Z.
Proof.
  unfold get_frequency_band. destruct (truediv (k * sr) F) as [freq|]; cbn [bind];
    [|discriminate].
  repeat match goal with
         | |- context [if ?t then _ else _] => destruct t
         end; intros H; injection H as <-; lia.
Qed.

Lemma band_to_hue_table (b : Z) (q : Q) :
  (0 <= b)%Z -> band_to_hue b = Ok q -> (b <= 6)%Z /\ hue_table b = Some q.
Proof.
  intros Hb H.
  destruct (Z.le_gt_cases b 6) as [Hle|Hgt].
  - assert (b = 0 \/ b = 1 \/ b = 2 \/ b = 3 \/ b = 4 \/ b = 5 \/ b = 6)%Z as Hc by lia.
    repeat (destruct Hc as [-> | Hc]); [ .. | subst b];
      cbv in H; injection H as <-; split; (lia || reflexivity).
  - exfalso. unfold band_to_hue, getitem in H.
    destruct (Z.ltb_spec b 0); [lia|]. destruct (Z.ltb_spec b 0); [lia|].
    assert (nth_error hue_values (Z.to_nat b) = None) as E
        by (apply nth_error_None; cbn; lia).
    rewrite E in H. discriminate.
Qed.

Lemma hue_cell_table (sr F col : Z) (h : npfloat) :
  hue_cell sr F col h ->
  exists b q, get_frequency_band col sr F = Ok b /\ (0 <= b <= 6)%Z /\
              hue_table b = Some q /\ h = Fin (Q2R q).
Proof.
  intros (b & q & Hb & Hq & ->).
  pose proof (@get_frequency_band_codomain _ _ _ _ Hb) as Hr.
  destruct (@band_to_hue_table b q ltac:(lia) Hq) as [Hle Ht].
  exists b, q. repeat split; (assumption || lia).
Qed.

Section ColorEncoder.

Context {A : Type}.
Variables (M : matrix R) (F sr : Z) (s : A).

(** What a successful run of the encoder has computed. *)
Lemma mdct_to_hsv_inv (out : matrix hsv) :
  mdct_to_hsv M F sr s = Ok out ->
  exists lo hi mx hue_row,
    amin (mmap log_magnitude M) = Ok lo /\
    amax (mmap log_magnitude M) = Ok hi /\
    amax (mmap Rabs M) = Ok mx /\
    Forall2 (hue_cell sr F) (range (F / 2)) hue_row /\
    stack3 (repeat hue_row (length M))
           (mmap (saturation_cell mx) M)
           (mmap (brightness_cell lo hi) M) = Ok out.
Proof.
  unfold mdct_to_hsv. rewrite mmap_log_magnitude. intros H.
  apply bind_Ok in H. destruct H as (lo & Hlo & H).
  apply bind_Ok in H. destruct H as (hi & Hhi & H).
  apply bind_Ok in H. destruct H as (d & Hd & H).
  apply bind_Ok in H. destruct H as (fs & Hfs & H).
  apply bind_Ok in H. destruct H as (u & Hu & H).
  apply bind_Ok in H. destruct H as (hue_row & Hhue & H).
  apply bind_Ok in H. destruct H as (mx & Hmx & H).
  exists lo, hi, mx, hue_row. repeat split; try assumption.
  - apply mapM_Forall2 in Hhue.
    eapply Forall2_impl; [|exact Hhue]. cbv beta. intros col h Hc.
    apply bind_Ok in Hc. destruct Hc as (b & Hb & Hc).
    apply bind_Ok in Hc. destruct Hc as (q & Hq & Hc).
    injection Hc as <-. exists b, q. auto.
  - rewrite <- H. f_equal. unfold mmap, brightness_cell.
    rewrite map_map. apply map_ext. intros row. now rewrite map_map.
Qed.

(** Cell by cell: the encoder's output has the shape of [M], and the
    cell of column [c] carries the hue of column [c] and the saturation
    and brightness computed from the input cell. *)
Lemma mdct_to_hsv_cells (out : matrix hsv) :
  mdct_to_hsv M F sr s = Ok out ->
  exists lo hi mx hue_row,
    amin (mmap log_magnitude M) = Ok lo /\
    amax (mmap log_magnitude M) = Ok hi /\
    amax (mmap Rabs M) = Ok mx /\
    Forall2 (hue_cell sr F) (range (F / 2)) hue_row /\
    (forall r c x, cell M r c = Some x ->
       exists h, nth_error hue_row c = Some h /\
                 cell out r c = Some (h, saturation_cell mx x, brightness_cell lo hi x)) /\
    (forall r c y, cell out r c = Some y ->
       exists h x, nth_error hue_row c = Some h /\ cell M r c = Some x /\
                   y = (h, saturation_cell mx x, brightness_cell lo hi x)).
Proof.
  intros H. apply mdct_to_hsv_inv in H.
  destruct H as (lo & hi & mx & hue_row & Hlo & Hhi & Hmx & Hhue & Hst).
  exists lo, hi, mx, hue_row. repeat split; try assumption.
  - intros r c x Hx.
    pose proof (stack3_cell _ _ _ Hst r c) as Hc.
    rewrite !cell_mmap, cell_repeat, Hx in Hc. cbn [option_map] in Hc.
    assert (shape (repeat hue_row (length M)) = shape M) as Hsh.
    { unfold stack3 in Hst.
      destruct (list_eq_dec Nat.eq_dec (shape (repeat hue_row (length M)))
                  (shape (mmap (saturation_cell mx) M))) as [E|]; [|discriminate].
      now rewrite shape_mmap in E. }
    unfold cell in Hx. destruct (nth_error M r) as [row|] eqn:Hr; [|discriminate].
    assert (r < length M)%nat as Hlt by (apply nth_error_Some; congruence).
    destruct (Nat.ltb_spec r (length M)); [|lia].
    assert (length row = length hue_row) as Hlen.
    { apply (f_equal (fun l => nth_error l r)) in Hsh.
      rewrite shape_repeat, nth_error_repeat in Hsh by assumption.
      unfold shape in Hsh. rewrite nth_error_map, Hr in Hsh.
      cbn in Hsh. congruence. }
    destruct (nth_error hue_row c) as [h|] eqn:Hh.
    + exists h. split; [reflexivity | exact Hc].
    + exfalso. apply nth_error_None in Hh.
      assert (c < length row)%nat by (apply nth_error_Some; congruence). lia.
  - intros r c y Hy.
    pose proof (eq_trans (eq_sym (stack3_cell _ _ _ Hst r c)) Hy) as Hc.
    rewrite !cell_mmap, cell_repeat in Hc.
    destruct (r <? length M)%nat; [|discriminate].
    destruct (nth_error hue_row c) as [h|]; [|discriminate].
    destruct (cell M r c) as [x|]; cbn [option_map] in Hc; [|discriminate].
    injection Hc as <-. eauto.
Qed.

Lemma mdct_to_hsv_length (out : matrix hsv) :
  mdct_to_hsv M F sr s = Ok out -> length out = length M.
Proof.
  intros H. apply mdct_to_hsv_inv in H.
  destruct H as (lo & hi & mx & hue_row & _ & _ & _ & _ & Hst).
  unfold stack3 in Hst.
  destruct (list_eq_dec Nat.eq_dec _ _) as [E1|]; [|discriminate].
  destruct (list_eq_dec Nat.eq_dec _ _) as [E2|]; [|discriminate].
  injection Hst as <-.
  apply (f_equal (@length nat)) in E1, E2. unfold shape, mmap in E1, E2.
  rewrite !length_map in E1, E2. rewrite repeat_length in E1.
  unfold zip3, mmap.
  rewrite length_map, !length_combine, !length_map, repeat_length. lia.
Qed.

Hypothesis Hvalid : valid_transform M F.
Hypothesis Hsr : (0 < sr)%Z.

Lemma valid_transform_first_cell : exists x, cell M 0 0 = Some x.
Proof.
  destruct Hvalid as (Hne & HW & Hrows).
  destruct M as [|row M']; [congruence|].
  apply Forall_inv in Hrows. destruct row as [|x row]; [cbn in Hrows; lia|].
  exists x. reflexivity.
Qed.

Lemma valid_transform_reduce (op : R -> R -> R) (f : R -> R) :
  exists m, reduce op (concat (mmap f M)) = Ok m.
Proof.
  apply reduce_nonempty. destruct valid_transform_first_cell as [x Hx].
  intros E. assert (In (f x) (concat (mmap f M))) as Hin.
  { apply In_concat_cell. exists 0%nat, 0%nat. now rewrite cell_mmap, Hx. }
  rewrite E in Hin. contradiction.
Qed.

Lemma hue_row_ok :
  exists hue_row,
    mapM (fun col =>
            band <- get_frequency_band col sr F ;;
            h <- band_to_hue band ;;
            Ok (Fin (Q2R h)))
         (range (F / 2)) = Ok hue_row /\
    length hue_row = Z.to_nat (F / 2).
Proof.
  destruct Hvalid as (Hne & HW & Hrows).
  assert (2 <= F)%Z as HF by (Z.to_euclidean_division_equations; lia).
  match goal with
  | |- exists _, mapM ?f ?l = _ /\ _ => destruct (@mapM_exists _ _ f l) as [hue_row Hrow]
  end.
  - intros col Hcol. apply In_range in Hcol.
    destruct (@get_frequency_band_ranges col sr F) as (b & -> & Hb & _);
      [lia | apply bin_freq_nonneg; lia |].
    cbn [bind].
    destruct (@getitem_inside _ hue_values b) as (q & Hq & _); [cbn; lia|].
    unfold band_to_hue. rewrite Hq. cbn [bind]. eauto.
  - exists hue_row. split; [assumption|].
    apply mapM_Forall2, Forall2_length_eq in Hrow.
    now rewrite <- Hrow, length_range.
Qed.

(** On a transform matrix of the configured frame size and a positive
    sample rate the encoder returns an array. *)
Lemma mdct_to_hsv_total : exists out, mdct_to_hsv M F sr s = Ok out.
Proof.
  pose proof Hvalid as (Hne & HW & Hrows).
  assert (2 <= F)%Z as HF by (Z.to_euclidean_division_equations; lia).
  unfold mdct_to_hsv. rewrite mmap_log_magnitude.
  destruct (valid_transform_reduce Rmin log_magnitude) as [lo Hlo].
  destruct (valid_transform_reduce Rmax log_magnitude) as [hi Hhi].
  destruct (valid_transform_reduce Rmax Rabs) as [mx Hmx].
  unfold amin, amax. rewrite Hlo, Hhi, Hmx. cbn [bind].
  rewrite truediv_one by lia. cbn [bind].
  destruct (@fftfreq_rate F sr) as (fs & -> & _); [lia|lia|]. cbn [bind].
  unfold check_dims at 1. cbn [forallb].
  destruct (Z.leb_spec 0 (F / 2)); [|lia]. cbn [andb bind].
  destruct hue_row_ok as (hue_row & -> & Hlen). cbn [bind].
  unfold stack3.
  assert (shape M = repeat (Z.to_nat (F / 2)) (length M)) as HshM.
  { apply shape_uniform. eapply Forall_impl; [|exact Hrows].
    cbv beta. unfold len. intros row Hrow. lia. }
  rewrite shape_repeat, !shape_mmap, Hlen, HshM.
  destruct (list_eq_dec Nat.eq_dec (repeat (Z.to_nat (F / 2)) (length M))
              (repeat (Z.to_nat (F / 2)) (length M))); [|congruence].
  eauto.
Qed.

End ColorEncoder.

(** ** Brightness *)

Section Brightness.

Local Open Scope R_scope.

Lemma ln10_pos : 0 < ln 10.
Proof. rewrite <- ln_1. apply ln_increasing; lra. Qed.

Lemma log_magnitude_lt (x y : R) :
  Rabs x < Rabs y -> log_magnitude x < log_magnitude y.
Proof.
  intros H. unfold log_magnitude, log10, Rdiv.
  apply Rmult_lt_compat_r; [apply Rinv_0_lt_compat, ln10_pos|].
  pose proof (Rabs_pos x). apply ln_increasing; lra.
Qed.

Lemma log_magnitude_le (x y : R) :
  Rabs x <= Rabs y -> log_magnitude x <= log_magnitude y.
Proof.
  intros [H|H]; [left; now apply log_magnitude_lt|].
  unfold log_magnitude. rewrite H. apply Rle_refl.
Qed.

Lemma log_magnitude_inj (x y : R) :
  log_magnitude x = log_magnitude y -> Rabs x = Rabs y.
Proof.
  intros E. destruct (Rtotal_order (Rabs x) (Rabs y)) as [H|[H|H]]; [|assumption|];
    apply log_magnitude_lt in H; lra.
Qed.

Lemma amin_global_min (f : R -> R) (M : matrix R) (m : R) :
  amin (mmap f M) = Ok m -> global_min M f m.
Proof.
  intros H. apply amin_spec in H. destruct H as ((r & c & Hm) & Hle).
  rewrite cell_mmap in Hm. split.
  - destruct (cell M r c) as [x|] eqn:E; [|discriminate].
    injection Hm as Hm. eauto.
  - intros r' c' x Hx. apply (Hle r' c'). now rewrite cell_mmap, Hx.
Qed.

Lemma amax_global_max (f : R -> R) (M : matrix R) (m : R) :
  amax (mmap f M) = Ok m -> global_max M f m.
Proof.
  intros H. apply amax_spec in H. destruct H as ((r & c & Hm) & Hle).
  rewrite cell_mmap in Hm. split.
  - destruct (cell M r c) as [x|] eqn:E; [|discriminate].
    injection Hm as Hm. eauto.
  - intros r' c' x Hx. apply (Hle r' c'). now rewrite cell_mmap, Hx.
Qed.

Lemma brightness_cell_finite (lo hi x : R) :
  lo < hi -> brightness_cell lo hi x = Fin ((log_magnitude x - lo) / (hi - lo)).
Proof.
  intros H. unfold brightness_cell, div.
  destruct (Req_dec_T (hi - lo) 0); [lra | reflexivity].
Qed.

Lemma normalised_bounds (l lo hi : R) :
  lo < hi -> lo <= l <= hi -> 0 <= (l - lo) / (hi - lo) <= 1.
Proof.
  intros H [Hl Hh]. assert (0 < / (hi - lo)) by (apply Rinv_0_lt_compat; lra).
  unfold Rdiv. split.
  - apply Rmult_le_pos; lra.
  - apply Rmult_le_reg_r with (hi - lo); [lra|].
    rewrite Rmult_assoc, Rinv_l by lra. lra.
Qed.

End Brightness.

(** C4, as the code has it. For a transform matrix whose cells do not all
    have the same magnitude, the brightness of a cell is
    [(L - min L) / (max L - min L)] with [L = log10(|M| + 1)] and the
    minimum and maximum taken over the whole matrix; it lies in [[0, 1]],
    is 1 at a cell of greatest magnitude and 0 at a cell of least
    magnitude. *)
Theorem brightness_global_minmax {A : Type} (M : matrix R) (F sr : Z) (s : A) :
  valid_transform M F -> (0 < sr)%Z ->
  (exists r c x r' c' y,
      cell M r c = Some x /\ cell M r' c' = Some y /\ Rabs x <> Rabs y) ->
  exists out lo hi,
    mdct_to_hsv M F sr s = Ok out /\
    global_min M log_magnitude lo /\
    global_max M log_magnitude hi /\
    forall r c x, cell M r c = Some x ->
      exists v : R,
        brightness_at out r c = Some (Fin v) /\
        v = ((log_magnitude x - lo) / (hi - lo))%R /\
        (0 <= v <= 1)%R /\
        ((forall r' c' y, cell M r' c' = Some y -> (Rabs y <= Rabs x)%R) -> v = 1%R) /\
        ((forall r' c' y, cell M r' c' = Some y -> (Rabs x <= Rabs y)%R) -> v = 0%R).
Proof.
  intros Hvalid Hsr (r1 & c1 & x1 & r2 & c2 & x2 & Hx1 & Hx2 & Hne).
  destruct (mdct_to_hsv_total s Hvalid Hsr) as [out Hout].
  destruct (mdct_to_hsv_cells _ _ _ _ Hout)
    as (lo & hi & mx & hue_row & Hlo & Hhi & _ & _ & Hcells & _).
  apply amin_global_min in Hlo. apply amax_global_max in Hhi.
  exists out, lo, hi. repeat split; try apply Hlo; try apply Hhi; try assumption.
  destruct Hlo as ((rl & cl & xl & Hxl & El) & Hlo).
  destruct Hhi as ((rh & ch & xh & Hxh & Eh) & Hhi).
  assert (lo < hi)%R as Hlt.
  { pose proof (Hlo _ _ _ Hx1). pose proof (Hlo _ _ _ Hx2).
    pose proof (Hhi _ _ _ Hx1). pose proof (Hhi _ _ _ Hx2).
    destruct (Req_dec (log_magnitude x1) (log_magnitude x2)) as [E|E];
      [apply log_magnitude_inj in E; contradiction | lra]. }
  intros r c x Hx. destruct (Hcells _ _ _ Hx) as (h & _ & Hc).
  exists ((log_magnitude x - lo) / (hi - lo))%R.
  split; [|split; [reflexivity|split; [|split]]].
  - unfold brightness_at. change (cell out r c) with (@cell hsv out r c).
    rewrite Hc. cbn. now rewrite brightness_cell_finite.
  - apply normalised_bounds; [assumption|]. split; [eapply Hlo | eapply Hhi]; eauto.
  - intros Hmax.
    assert (log_magnitude x = hi) as ->.
    { apply Rle_antisym; [eapply Hhi; eauto|].
      rewrite <- Eh. apply log_magnitude_le. eapply Hmax; eauto. }
    field. lra.
  - intros Hmin.
    assert (log_magnitude x = lo) as ->.
    { apply Rle_antisym; [|eapply Hlo; eauto].
      rewrite <- El. apply log_magnitude_le. eapply Hmin; eauto. }
    field. lra.
Qed.

Lemma cell_single {T : Type} (a x : T) (r c : nat) :
  cell [[a]] r c = Some x -> x = a.
Proof.
  unfold cell. destruct r as [|r]; cbn [nth_error].
  - destruct c as [|c]; cbn [nth_error]; [congruence|].
    destruct c; discriminate.
  - destruct r; discriminate.
Qed.

Lemma valid_transform_small (x y : R) : valid_transform [[x; y]] 4.
Proof. split; [discriminate|]. split; [reflexivity|]. repeat constructor. Qed.

Lemma valid_transform_single (x : R) : valid_transform [[x]] 2.
Proof. split; [discriminate|]. split; [reflexivity|]. repeat constructor. Qed.

Lemma brightness_global_minmax_witness :
  exists out lo hi,
    mdct_to_hsv [[0; 1]]%R 4 44100 1%Z = Ok out /\
    global_min [[0; 1]]%R log_magnitude lo /\
    global_max [[0; 1]]%R log_magnitude hi /\
    forall r c x, cell [[0; 1]]%R r c = Some x ->
      exists v : R,
        brightness_at out r c = Some (Fin v) /\
        v = ((log_magnitude x - lo) / (hi - lo))%R /\
        (0 <= v <= 1)%R /\
        ((forall r' c' y, cell [[0; 1]]%R r' c' = Some y -> (Rabs y <= Rabs x)%R) -> v = 1%R) /\
        ((forall r' c' y, cell [[0; 1]]%R r' c' = Some y -> (Rabs x <= Rabs y)%R) -> v = 0%R).
Proof.
  apply (@brightness_global_minmax Z [[0; 1]]%R 4 44100 1%Z).
  - apply valid_transform_small.
  - reflexivity.
  - exists 0%nat, 0%nat, 0%R, 0%nat, 1%nat, 1%R.
    split; [reflexivity|]. split; [reflexivity|].
    rewrite Rabs_R0, Rabs_R1. lra.
Defined.

(** When all cells have the same magnitude, [max(L) = min(L)] and the
    brightness normalisation divides zero by zero. *)
Lemma brightness_constant_magnitude {A : Type} (M : matrix R) (F sr : Z) (s : A) :
  valid_transform M F -> (0 < sr)%Z ->
  (forall r c x r' c' y,
      cell M r c = Some x -> cell M r' c' = Some y -> Rabs x = Rabs y) ->
  exists out,
    mdct_to_hsv M F sr s = Ok out /\
    (forall r c x, cell M r c = Some x -> brightness_at out r c = Some NaN) /\
    (forall r c y, cell out r c = Some y -> brightness_of y = NaN).
Proof.
  intros Hvalid Hsr Hconst.
  destruct (mdct_to_hsv_total s Hvalid Hsr) as [out Hout].
  destruct (mdct_to_hsv_cells _ _ _ _ Hout)
    as (lo & hi & mx & hue_row & Hlo & Hhi & _ & _ & Hcells & Hinv).
  apply amin_global_min in Hlo. apply amax_global_max in Hhi.
  destruct Hlo as ((rl & cl & xl & Hxl & El) & _).
  destruct Hhi as ((rh & ch & xh & Hxh & Eh) & _).
  assert (forall r c x, cell M r c = Some x -> brightness_cell lo hi x = NaN) as Hnan.
  { intros r c x Hx. unfold brightness_cell, div. rewrite <- El, <- Eh.
    assert (log_magnitude xl = log_magnitude x) as ->
        by (unfold log_magnitude; now rewrite (Hconst _ _ _ _ _ _ Hxl Hx)).
    assert (log_magnitude xh = log_magnitude x) as ->
        by (unfold log_magnitude; now rewrite (Hconst _ _ _ _ _ _ Hxh Hx)).
    destruct (Req_dec_T (log_magnitude x - log_magnitude x) 0) as [_|n];
      [reflexivity | exfalso; apply n; ring]. }
  exists out. split; [assumption|]. split.
  - intros r c x Hx. destruct (Hcells _ _ _ Hx) as (h & _ & Hc).
    unfold brightness_at. change (cell out r c) with (@cell hsv out r c).
    rewrite Hc. cbn. f_equal. eauto.
  - intros r c y Hy. destruct (Hinv _ _ _ Hy) as (h & x & _ & Hx & ->).
    cbn. eauto.
Qed.

(** The matrix with the single cell 1 is not all-zero, and its brightness
    is nan, not a number of [[0, 1]]. *)
Lemma brightness_single_cell_nan :
  (exists x, cell [[1%R]] 0 0 = Some x /\ x <> 0%R) /\
  exists out,
    mdct_to_hsv [[1%R]] 2 44100 1%Z = Ok out /\
    brightness_at out 0 0 = Some NaN /\
    ~ (exists v : R, brightness_at out 0 0 = Some (Fin v) /\ (0 <= v <= 1)%R).
Proof.
  split; [exists 1%R; split; [reflexivity | lra]|].
  destruct (@brightness_constant_magnitude Z [[1%R]] 2 44100 1%Z)
    as (out & Hout & Hb & _).
  - apply valid_transform_single.
  - reflexivity.
  - intros r c x r' c' y Hx Hy.
    apply cell_single in Hx, Hy. congruence.
  - exists out. split; [assumption|].
    assert (brightness_at out 0 0 = Some NaN) as E by (apply (Hb 0%nat 0%nat 1%R); reflexivity).
    split; [assumption|]. intros (v & Hv & _). rewrite E in Hv. discriminate.
Qed.

(** ** Saturation *)

Section Saturation.

Local Open Scope R_scope.

Lemma saturation_cell_finite (mx x : R) :
  mx <> 0 -> saturation_cell mx x = Fin (0.8 + 0.2 / mx * x).
Proof.
  intros H. unfold saturation_cell, div.
  destruct (Req_dec_T mx 0); [contradiction | reflexivity].
Qed.

Lemma saturation_cell_zero : saturation_cell 0 0 = NaN.
Proof.
  unfold saturation_cell, div.
  destruct (Req_dec_T 0 0) as [_|n]; [|contradiction].
  destruct (Req_dec_T 0.2 0) as [E|_].
  - exfalso. unfold Q2R in E. cbn [Qnum Qden] in E. lra.
  - destruct (Rlt_dec 0 0.2) as [_|n].
    + cbn [scale]. destruct (Req_dec_T 0 0) as [_|n]; [reflexivity | contradiction].
    + exfalso. apply n. unfold Q2R. cbn [Qnum Qden]. lra.
Qed.

Lemma saturation_bounds (mx x : R) :
  0 < mx -> Rabs x <= mx -> 0.6 <= 0.8 + 0.2 / mx * x <= 1.0.
Proof.
  intros Hmx Hx. unfold Q2R. cbn [Qnum Qden].
  assert (-1 <= x / mx <= 1) as Hq.
  { pose proof (Rle_abs x). pose proof (Rle_abs (- x)) as Hn.
    rewrite Rabs_Ropp in Hn.
    split; apply Rmult_le_reg_r with mx; try assumption;
      unfold Rdiv; rewrite Rmult_assoc, Rinv_l by lra; lra. }
  replace (2 * / 10 / mx * x) with (2 / 10 * (x / mx)) by (field; lra).
  lra.
Qed.

End Saturation.

(** C5. For a transform matrix that is not all zero, the saturation of a
    cell is [0.8 + (0.2 / max|M|) * M], linear in the signed coefficient,
    and lies in [[0.6, 1.0]]. *)
Theorem saturation_linear_bounded {A : Type} (M : matrix R) (F sr : Z) (s : A) :
  valid_transform M F -> (0 < sr)%Z ->
  (exists r c x, cell M r c = Some x /\ x <> 0%R) ->
  exists out mx,
    mdct_to_hsv M F sr s = Ok out /\
    global_max M Rabs mx /\
    forall r c x, cell M r c = Some x ->
      exists v : R,
        saturation_at out r c = Some (Fin v) /\
        v = (0.8 + 0.2 / mx * x)%R /\
        (0.6 <= v <= 1.0)%R.
Proof.
  intros Hvalid Hsr (r0 & c0 & x0 & Hx0 & Hne).
  destruct (mdct_to_hsv_total s Hvalid Hsr) as [out Hout].
  destruct (mdct_to_hsv_cells _ _ _ _ Hout)
    as (lo & hi & mx & hue_row & _ & _ & Hmx & _ & Hcells & _).
  apply (amax_global_max Rabs) in Hmx.
  exists out, mx. split; [assumption|]. split; [assumption|].
  destruct Hmx as (_ & Hmx).
  assert (0 < mx)%R as Hpos.
  { apply Rlt_le_trans with (Rabs x0); [now apply Rabs_pos_lt | eauto]. }
  intros r c x Hx. destruct (Hcells _ _ _ Hx) as (h & _ & Hc).
  exists (0.8 + 0.2 / mx * x)%R. split; [|split; [reflexivity|]].
  - unfold saturation_at. change (cell out r c) with (@cell hsv out r c).
    rewrite Hc. cbn. rewrite saturation_cell_finite by lra. reflexivity.
  - apply saturation_bounds; eauto.
Qed.

Lemma saturation_linear_bounded_witness :
  exists out mx,
    mdct_to_hsv [[-2; 1]]%R 4 44100 1%Z = Ok out /\
    global_max [[-2; 1]]%R Rabs mx /\
    forall r c x, cell [[-2; 1]]%R r c = Some x ->
      exists v : R,
        saturation_at out r c = Some (Fin v) /\
        v = (0.8 + 0.2 / mx * x)%R /\
        (0.6 <= v <= 1.0)%R.
Proof.
  apply (@saturation_linear_bounded Z [[-2; 1]]%R 4 44100 1%Z).
  - apply valid_transform_small.
  - reflexivity.
  - exists 0%nat, 1%nat, 1%R. split; [reflexivity | lra].
Defined.

(** ** Hue *)

(** C7. The encoder returns an array for every transform matrix of the
    frame size and positive sample rate. In the array it returns, every
    cell of the matrix has a hue, the table hue of the band of the cell's
    column: the hue is the same in all frames of a column and for all bins
    of one band, and the array has no cell where the matrix has none. *)
Theorem hue_by_band_only {A : Type} (M : matrix R) (F sr : Z) (s : A) :
  (valid_transform M F -> (0 < sr)%Z ->
     exists out,
       mdct_to_hsv M F sr s = Ok out /\
       forall r c x, cell M r c = Some x ->
         exists b q, get_frequency_band (Z.of_nat c) sr F = Ok b /\
                     (0 <= b <= 6)%Z /\ hue_table b = Some q /\
                     hue_at out r c = Some (Fin (Q2R q))) /\
  (forall out, mdct_to_hsv M F sr s = Ok out ->
     (forall r c x, cell M r c = Some x ->
        exists b q, get_frequency_band (Z.of_nat c) sr F = Ok b /\
                    (0 <= b <= 6)%Z /\ hue_table b = Some q /\
                    hue_at out r c = Some (Fin (Q2R q))) /\
     (forall r c h, hue_at out r c = Some h -> exists x, cell M r c = Some x) /\
     (forall r r' c x x',
        cell M r c = Some x -> cell M r' c = Some x' ->
        exists h, hue_at out r c = Some h /\ hue_at out r' c = Some h) /\
     (forall r r' c c' x x' b,
        cell M r c = Some x -> cell M r' c' = Some x' ->
        get_frequency_band (Z.of_nat c) sr F = Ok b ->
        get_frequency_band (Z.of_nat c') sr F = Ok b ->
        exists h, hue_at out r c = Some h /\ hue_at out r' c' = Some h)).
Proof.
  assert (forall out, mdct_to_hsv M F sr s = Ok out ->
            forall r c x, cell M r c = Some x ->
              exists b q, get_frequency_band (Z.of_nat c) sr F = Ok b /\
                          (0 <= b <= 6)%Z /\ hue_table b = Some q /\
                          hue_at out r c = Some (Fin (Q2R q))) as Hcol.
  { intros out Hout r c x Hx.
    destruct (mdct_to_hsv_cells _ _ _ _ Hout)
      as (lo & hi & mx & hue_row & _ & _ & _ & Hhue & Hcells & _).
    destruct (Hcells _ _ _ Hx) as (h & Hh & Hc).
    destruct (Forall2_nth_error_r Hhue _ Hh) as (col & Hcol & Hcell).
    assert (col = Z.of_nat c) as ->.
    { destruct (Z.lt_ge_cases (Z.of_nat c) (F / 2)) as [Hlt|Hge].
      - rewrite nth_error_range in Hcol by assumption. congruence.
      - exfalso. assert (nth_error (range (F / 2)) c = None) as E
            by (apply nth_error_None; rewrite length_range; lia).
        congruence. }
    destruct (hue_cell_table Hcell) as (b & q & Hb & Hr & Hq & ->).
    exists b, q. repeat split; try assumption; try lia.
    unfold hue_at. change (cell out r c) with (@cell hsv out r c).
    rewrite Hc. reflexivity. }
  split.
  - intros Hvalid Hsr. destruct (mdct_to_hsv_total s Hvalid Hsr) as [out Hout].
    exists out. split; [exact Hout | exact (Hcol out Hout)].
  - intros out Hout. split; [exact (Hcol out Hout)|]. split; [|split].
    + intros r c h Hh. unfold hue_at in Hh.
      destruct (cell out r c) as [y|] eqn:Hy; [|discriminate].
      destruct (mdct_to_hsv_cells _ _ _ _ Hout)
        as (lo & hi & mx & hue_row & _ & _ & _ & _ & _ & Hinv).
      destruct (Hinv _ _ _ Hy) as (h0 & x & _ & Hx & _). eauto.
    + intros r r' c x x' Hx Hx'.
      destruct (Hcol out Hout _ _ _ Hx) as (b & q & Hb & _ & Hq & Hh).
      destruct (Hcol out Hout _ _ _ Hx') as (b' & q' & Hb' & _ & Hq' & Hh').
      exists (Fin (Q2R q)). split; [exact Hh|].
      rewrite Hh'. congruence.
    + intros r r' c c' x x' b Hx Hx' Hb Hb'.
      destruct (Hcol out Hout _ _ _ Hx) as (b1 & q & Hb1 & _ & Hq & Hh).
      destruct (Hcol out Hout _ _ _ Hx') as (b2 & q' & Hb2 & _ & Hq' & Hh').
      exists (Fin (Q2R q)). split; [exact Hh|].
      rewrite Hh'. congruence.
Qed.

(** C10. The [saturation] argument of [mdct_to_hsv] has no influence on
    the result: whatever two values are passed, of whatever types, the two
    calls return the same. *)
Theorem saturation_argument_ignored {A B : Type} (M : matrix R) (F sr : Z)
    (s1 : A) (s2 : B) :
  mdct_to_hsv M F sr s1 = mdct_to_hsv M F sr s2.
Proof. reflexivity. Qed.

Lemma hue_by_band_only_witness :
  exists out,
    mdct_to_hsv [[0; 1]]%R 4 44100 1%Z = Ok out /\
    (forall r c x, cell [[0; 1]]%R r c = Some x ->
       exists b q, get_frequency_band (Z.of_nat c) 44100 4 = Ok b /\
                   (0 <= b <= 6)%Z /\ hue_table b = Some q /\
                   hue_at out r c = Some (Fin (Q2R q))) /\
    (forall r c h, hue_at out r c = Some h -> exists x, cell [[0; 1]]%R r c = Some x) /\
    (forall r r' c x x',
       cell [[0; 1]]%R r c = Some x -> cell [[0; 1]]%R r' c = Some x' ->
       exists h, hue_at out r c = Some h /\ hue_at out r' c = Some h) /\
    (forall r r' c c' x x' b,
       cell [[0; 1]]%R r c = Some x -> cell [[0; 1]]%R r' c' = Some x' ->
       get_frequency_band (Z.of_nat c) 44100 4 = Ok b ->
       get_frequency_band (Z.of_nat c') 44100 4 = Ok b ->
       exists h, hue_at out r c = Some h /\ hue_at out r' c' = Some h).
Proof.
  destruct (@hue_by_band_only Z [[0; 1]]%R 4 44100 1%Z) as [Htotal Hhue].
  destruct Htotal as (out & Hout & _); [apply valid_transform_small | reflexivity |].
  exists out. split; [exact Hout | exact (Hhue out Hout)].
Defined.

(** ** Digital silence *)

Section Silence.

Local Open Scope R_scope.






End Silence.

(** ** The renderer's loop runs to its end on an array of 512 columns *)

Lemma band_to_numbins_nonneg (band : Z) : (0 <= band_to_numbins band)%Z.
Proof.
  unfold band_to_numbins.
  repeat match goal with
         | |- context [(band =? ?c)%Z] => destruct (band =? c)%Z
         end; lia.
Qed.


Section RendererLoop.

Local Open Scope Z_scope.

Variable hsv_array : matrix hsv.
Variable W : Z.
Hypothesis Hwide : forall row, In row hsv_array -> W <= len row.

Lemma take_columns_total (columns : list Z) :
  (forall c, In c columns -> 0 <= c < W) ->
  exists cells, take_columns hsv_array columns = Ok cells.
Proof.
  intros Hc. unfold take_columns. apply mapM_exists. intros row Hrow.
  apply mapM_exists. intros c Hin.
  destruct (@getitem_inside _ row c) as (x & Hx & _); [|eauto].
  specialize (Hc c Hin). specialize (Hwide row Hrow). lia.
Qed.

Lemma draw_bands_total (bands : list Z) :
  Forall (fun b => 0 <= b <= 6) bands ->
  forall col, 0 <= col -> col + Zsum (map band_to_numbins bands) <= W ->
  exists ms, draw_bands hsv_array bands col = Ok ms /\ length ms = length bands.
Proof.
  induction 1 as [|band rest Hband _ IH]; intros col Hcol Hsum; cbn [draw_bands].
  - eauto.
  - cbn [map Zsum fold_right] in Hsum. fold (Zsum (map band_to_numbins rest)) in Hsum.
    pose proof (band_to_numbins_nonneg band) as Hn.
    assert (0 <= Zsum (map band_to_numbins rest)) as Hrest.
    { clear. induction rest as [|b l IHl]; cbn; [lia|].
      pose proof (band_to_numbins_nonneg b). unfold Zsum in IHl. lia. }
    destruct (@getitem_inside _ band_radii band) as (outer & -> & _);
      [change (len band_radii) with 8; lia|].
    destruct (@getitem_inside _ band_radii (band + 1)) as (inner & -> & _);
      [change (len band_radii) with 8; lia|].
    cbn [bind].
    destruct (take_columns_total (range2 col (col + band_to_numbins band)))
      as [cells ->].
    { intros c Hc. apply In_range2 in Hc. lia. }
    cbn [bind].
    destruct (IH (col + band_to_numbins band)) as (ms & -> & Hlen); [lia|lia|].
    cbn [bind]. eexists. split; [reflexivity|]. cbn. now rewrite Hlen.
Qed.

End RendererLoop.



(** ** The pipeline on digital silence *)

Section SilencePipeline.

Local Open Scope Z_scope.

Lemma apply_mdct_frames_valid (audio : list R) (F H : Z) :
  2 <= F -> 0 < H -> F <= len audio ->
  valid_transform
    (map (fun n => firstn (Z.to_nat (F / 2)) (dct2_ortho (windowed_frame audio F H n)))
         (range (1 + (len audio - F) / H))) F.
Proof.
  intros HF HH HN.
  assert (0 <= (len audio - F) / H) by (apply Z.div_pos; lia).
  split; [|split].
  - intros E. apply (f_equal (@length _)) in E.
    rewrite length_map, length_range in E. cbn [length] in E. lia.
  - Z.to_euclidean_division_equations; lia.
  - apply Forall_map, Forall_forall. intros n _. unfold len.
    rewrite length_firstn, length_dct2_ortho, length_windowed_frame.
    Z.to_euclidean_division_equations; lia.
Qed.

Lemma valid_transform_amin (M : matrix R) (F : Z) (op : R -> R -> R) :
  valid_transform M F -> exists m, reduce op (concat M) = Ok m.
Proof.
  intros Hvalid. apply reduce_nonempty.
  destruct (valid_transform_first_cell Hvalid) as [x Hx].
  intros E. assert (In x (concat M)) as Hin by (apply In_concat_cell; eauto).
  rewrite E in Hin. contradiction.
Qed.

Lemma mdct_to_hsv_wide {A : Type} (M : matrix R) (F sr : Z) (s : A) (out : matrix hsv) :
  valid_transform M F -> mdct_to_hsv M F sr s = Ok out ->
  forall row, In row out -> F / 2 <= len row.
Proof.
  intros (_ & HW & Hrows) Hout row Hrow.
  pose proof (mdct_to_hsv_length _ _ _ _ Hout) as Hlen.
  destruct (mdct_to_hsv_cells _ _ _ _ Hout)
    as (lo & hi & mx & hue_row & _ & _ & _ & _ & Hcells & _).
  apply In_nth_error in Hrow. destruct Hrow as [r Hr].
  assert (r < length M)%nat as Hlt
      by (rewrite <- Hlen; apply nth_error_Some; congruence).
  destruct (nth_error M r) as [rowM|] eqn:HrM;
    [|apply nth_error_None in HrM; lia].
  rewrite Forall_forall in Hrows.
  pose proof (Hrows rowM (nth_error_In _ _ HrM)) as HlenM. unfold len in HlenM.
  destruct (nth_error rowM (Z.to_nat (F / 2) - 1)) as [x|] eqn:Hx;
    [|apply nth_error_None in Hx; lia].
  destruct (Hcells r (Z.to_nat (F / 2) - 1)%nat x) as (h & _ & Hc).
  { unfold cell. now rewrite HrM. }
  unfold cell in Hc. rewrite Hr in Hc.
  assert (Z.to_nat (F / 2) - 1 < length row)%nat
    by (apply nth_error_Some; congruence).
  unfold len. lia.
Qed.

Variables (audio : list R) (sr : Z).
Hypothesis Hsr : 0 < sr.
Hypothesis Hlen : 1024 <= len audio.
Hypothesis Hzero : Forall (fun a => a = 0%R) audio.


End SilencePipeline.


Lemma len_repeat {T : Type} (x : T) (n : nat) : len (repeat x n) = Z.of_nat n.
Proof. unfold len. now rewrite repeat_length. Qed.




Lemma get_frequency_band_valid_witness :
  exists b : Z,
    get_frequency_band 23 44100 1024 = Ok b /\
    (0 <= b <= 6)%Z /\ b <> 7%Z /\
    (b = 0%Z <-> 0 <= bin_freq 23 44100 1024 /\ bin_freq 23 44100 1024 < 60)%Q /\
    (b = 1%Z <-> 60 <= bin_freq 23 44100 1024 /\ bin_freq 23 44100 1024 < 250)%Q /\
    (b = 2%Z <-> 250 <= bin_freq 23 44100 1024 /\ bin_freq 23 44100 1024 < 500)%Q /\
    (b = 3%Z <-> 500 <= bin_freq 23 44100 1024 /\ bin_freq 23 44100 1024 < 2000)%Q /\
    (b = 4%Z <-> 2000 <= bin_freq 23 44100 1024 /\ bin_freq 23 44100 1024 < 4000)%Q /\
    (b = 5%Z <-> 4000 <= bin_freq 23 44100 1024 /\ bin_freq 23 44100 1024 < 6000)%Q /\
    (b = 6%Z <-> 6000 <= bin_freq 23 44100 1024)%Q.
Proof.
  apply (@get_frequency_band_valid 1024 44100 23).
  - exists 10%nat. reflexivity.
  - reflexivity.
  - split; [discriminate | reflexivity].
Defined.

Lemma polar_band_annuli_witness :
  exists ms,
    plot_polar_spectrogram [repeat (Fin 0, Fin 0, Fin 0) 512] 1024 44100 = Ok ms /\
    length band_radii = 8%nat /\
    (forall i : Z, (0 <= i < 8)%Z ->
       exists r, getitem band_radii i = Ok r /\
                 r == max_radius - inject_Z i * ((max_radius - min_radius) / 7))%Q /\
    Forall2 band_mesh (range 7) ms /\
    (forall m m' : mesh, In m ms -> In m' ms ->
       (mesh_band m < mesh_band m')%Z ->
       inner_radius m' < outer_radius m' /\
       outer_radius m' <= inner_radius m /\
       inner_radius m < outer_radius m)%Q /\
    (exists m0, nth_error ms 0 = Some m0 /\
                mesh_band m0 = 0%Z /\ outer_radius m0 == max_radius)%Q /\
    (exists m6, nth_error ms 6 = Some m6 /\
                mesh_band m6 = 6%Z /\ inner_radius m6 == min_radius)%Q.
Proof.
  destruct (@draw_bands_total [repeat (Fin 0, Fin 0, Fin 0) 512] 512) with
    (bands := range 7) (col := 0%Z) as (ms & Hms & _).
  - intros row [<-|[]]. rewrite len_repeat. discriminate.
  - change (range 7) with [0; 1; 2; 3; 4; 5; 6]%Z. repeat constructor; discriminate.
  - discriminate.
  - discriminate.
  - exists ms. split; [exact Hms|].
    exact (@polar_band_annuli [repeat (Fin 0, Fin 0, Fin 0) 512] 1024 44100 ms Hms).
Defined.

(** ** The transform is the orthonormal DCT-II

    Two checks of [dct2_ortho] against the transform it stands for: a
    single sample is returned as it is, and two samples are mapped to their
    normalised sum and difference, which preserves the energy. *)

Section DctChecks.

Local Open Scope R_scope.

Lemma sqrt_quarter : sqrt (1 / 4) = 1 / 2.
Proof.
  replace (1 / 4) with ((1 / 2) * (1 / 2)) by field.
  apply sqrt_square. lra.
Qed.

Lemma sqrt_eighth : 2 * sqrt (1 / 8) = 1 / sqrt 2.
Proof.
  assert (0 < sqrt 2) as H2 by (apply sqrt_lt_R0; lra).
  assert (sqrt 2 * sqrt 2 = 2) as Hs by (apply sqrt_sqrt; lra).
  replace (1 / 8) with ((1 / (2 * sqrt 2)) * (1 / (2 * sqrt 2))).
  - rewrite sqrt_square.
    + field. lra.
    + apply Rlt_le, Rdiv_lt_0_compat; lra.
  - field_simplify; [|lra]. replace (sqrt 2 ^ 2) with (sqrt 2 * sqrt 2) by ring.
    rewrite Hs. field.
Qed.

Lemma dct2_ortho_one (x : R) : dct2_ortho [x] = [x].
Proof.
  unfold dct2_ortho, dct_norm, dct_term, Rsum.
  cbn [length seq map combine fold_right fst snd INR].
  f_equal.
  replace (PI * 0 * (2 * 0 + 1) / (2 * 1)) with 0 by field.
  rewrite cos_0. replace (1 / (4 * 1)) with (1 / 4) by field.
  rewrite sqrt_quarter. field.
Qed.

Lemma dct2_ortho_two (a b : R) :
  dct2_ortho [a; b] = [(a + b) / sqrt 2; (a - b) / sqrt 2].
Proof.
  assert (0 < sqrt 2) as H2 by (apply sqrt_lt_R0; lra).
  unfold dct2_ortho, dct_norm, dct_term, Rsum.
  cbn [length seq map combine fold_right fst snd].
  change (INR 2) with (1 + 1). change (INR 1) with 1. change (INR 0) with 0.
  f_equal; [|f_equal].
  - replace (PI * 0 * (2 * 0 + 1) / (2 * (1 + 1))) with 0 by field.
    replace (PI * 0 * (2 * 1 + 1) / (2 * (1 + 1))) with 0 by field.
    rewrite cos_0. replace (1 / (4 * (1 + 1))) with (1 / 8) by field.
    replace (sqrt (1 / 8) * (2 * (a * 1 + (b * 1 + 0))))
      with (2 * sqrt (1 / 8) * (a + b)) by ring.
    rewrite sqrt_eighth. field. lra.
  - replace (PI * 1 * (2 * 0 + 1) / (2 * (1 + 1))) with (PI / 4) by field.
    replace (PI * 1 * (2 * 1 + 1) / (2 * (1 + 1))) with (3 * (PI / 4)) by field.
    rewrite cos_PI4, cos_3PI4.
    replace (1 / (2 * (1 + 1))) with (1 / 4) by field.
    rewrite sqrt_quarter. field. lra.
Qed.

Lemma dct2_ortho_two_energy (a b y0 y1 : R) :
  dct2_ortho [a; b] = [y0; y1] -> y0 * y0 + y1 * y1 = a * a + b * b.
Proof.
  rewrite dct2_ortho_two. intros H. injection H as <- <-.
  assert (0 < sqrt 2) as H2 by (apply sqrt_lt_R0; lra).
  assert (sqrt 2 * sqrt 2 = 2) as Hs by (apply sqrt_sqrt; lra).
  replace ((a + b) / sqrt 2 * ((a + b) / sqrt 2) + (a - b) / sqrt 2 * ((a - b) / sqrt 2))
    with (((a + b) * (a + b) + (a - b) * (a - b)) / (sqrt 2 * sqrt 2)) by (field; lra).
  rewrite Hs. field.
Qed.

End DctChecks.

(** * Further properties *)

(** ** Band Mapper: integer form, order, sentinel, partition *)

Section BandMapperMore.

Local Open Scope Z_scope.

Lemma Qle_bool_div (t a F : Z) :
  0 < F -> Qle_bool (t # 1) (inject_Z a / inject_Z F) = (t * F <=? a).
Proof.
  intros HF. apply eq_true_iff_eq. rewrite Qle_bool_iff, Z.leb_le.
  destruct F as [|p|p]; try lia.
  unfold Qle, Qdiv, Qmult, Qinv, inject_Z. cbn. lia.
Qed.

(** For a positive frame size the band is decided by integer comparisons
    of [k * sr] with the band limits times [F]. *)
Lemma get_frequency_band_product (k sr F : Z) :
  0 < F -> get_frequency_band k sr F = Ok (band_of_product (k * sr) F).
Proof.
  intros HF. unfold get_frequency_band, truediv.
  destruct (Z.eqb_spec F 0); [lia|]. cbn [bind]. unfold Qltb.
  rewrite !Qle_bool_div by assumption. unfold band_of_product.
  set (p := k * sr).
  destruct (Z.ltb_spec p 0);
    repeat match goal with
           | |- context [(?a <=? p)] => destruct (Z.leb_spec a p); try lia
           end;
    cbn [andb negb];
    repeat match goal with
           | |- context [(p <? ?a)] => destruct (Z.ltb_spec p a); try lia
           end;
    reflexivity.
Qed.

Lemma band_of_product_mono (p p' F : Z) :
  0 < F -> 0 <= p <= p' -> band_of_product p F <= band_of_product p' F.
Proof.
  intros HF Hp. unfold band_of_product.
  repeat match goal with
         | |- context [(?a <? ?b)] => destruct (Z.ltb_spec a b); try lia
         end.
Qed.

Lemma band_of_product_range (p F : Z) :
  0 <= p -> 0 <= band_of_product p F <= 6.
Proof.
  intros Hp. unfold band_of_product.
  repeat match goal with
         | |- context [(?a <? ?b)] => destruct (Z.ltb_spec a b); try lia
         end.
Qed.

(** X1. Band ids never decrease along the frequency axis: for a positive
    frame size and a non-negative sample rate, a higher bin index has the
    same or a higher band. *)
Theorem get_frequency_band_monotone (k k' sr F : Z) :
  0 < F -> 0 <= sr -> 0 <= k <= k' ->
  exists b b',
    get_frequency_band k sr F = Ok b /\
    get_frequency_band k' sr F = Ok b' /\
    0 <= b <= b' /\ b' <= 6.
Proof.
  intros HF Hsr Hk. rewrite !get_frequency_band_product by assumption.
  eexists. eexists. split; [reflexivity|]. split; [reflexivity|].
  pose proof (@band_of_product_mono (k * sr) (k' * sr) F HF ltac:(nia)).
  pose proof (@band_of_product_range (k * sr) F ltac:(nia)).
  pose proof (@band_of_product_range (k' * sr) F ltac:(nia)).
  lia.
Qed.

Lemma get_frequency_band_monotone_witness :
  exists b b',
    get_frequency_band 11 44100 1024 = Ok b /\
    get_frequency_band 12 44100 1024 = Ok b' /\
    0 <= b <= b' /\ b' <= 6.
Proof.
  apply (@get_frequency_band_monotone 11 12 44100 1024);
    [reflexivity | discriminate | split; discriminate].
Defined.

End BandMapperMore.

Section BandMapperOutcomes.

Local Open Scope Q_scope.

Ltac split_tests :=
  repeat match goal with
    | |- context [Qle_bool ?a ?b] =>
        let E := fresh "E" in
        destruct (Qle_bool a b) eqn:E;
        [ apply Qle_bool_iff in E
        | apply not_true_iff_false in E; rewrite Qle_bool_iff in E ]
    end.

(** X2. The only exception of the Band Mapper is the division by a zero
    frame size; otherwise it returns a band in 0..7, and the sentinel 7
    exactly when the frequency [k * sr / F] is negative. *)
Theorem get_frequency_band_outcomes (k sr F : Z) :
  (get_frequency_band k sr F = Raise ZeroDivisionError <-> F = 0%Z) /\
  (forall e, get_frequency_band k sr F = Raise e -> e = ZeroDivisionError) /\
  (forall b, get_frequency_band k sr F = Ok b ->
     (0 <= b <= 7)%Z /\ (b = 7%Z <-> bin_freq k sr F < 0)).
Proof.
  unfold get_frequency_band, truediv.
  destruct (Z.eqb_spec F 0) as [->|HF]; cbn [bind].
  - split; [tauto|]. split; [congruence | discriminate].
  - fold (bin_freq k sr F). set (freq := bin_freq k sr F).
    unfold Qltb.
    split; [|split].
    + split; [|contradiction].
      split_tests; cbn [negb andb]; discriminate.
    + intros e. split_tests; cbn [negb andb]; discriminate.
    + intros b. split_tests; cbn [negb andb]; intros H; injection H as <-;
        (split; [lia|]); split; intros; try lia; try lra; exfalso; lra.
Qed.

End BandMapperOutcomes.

(** ** Band Mapper: the bands partition the half spectrum *)

Section BandPartition.

Local Open Scope Z_scope.

Variables (sr F : Z).
Hypothesis HF : 0 < F.
Hypothesis Hsr : 0 <= sr.

Lemma count_bands_of (l : list Z) :
  (forall k, In k l -> 0 <= k) ->
  Zsum (map (fun band =>
               len (filter (fun k => match get_frequency_band k sr F with
                                     | Ok b => (b =? band)
                                     | Raise _ => false
                                     end) l))
            (range 7)) = len l.
Proof.
  change (range 7) with [0; 1; 2; 3; 4; 5; 6].
  induction l as [|k l IH]; intros Hl; [reflexivity|].
  specialize (IH (fun j Hj => Hl j (or_intror Hj))).
  pose proof (Hl k (or_introl eq_refl)) as Hk.
  cbn [map filter] in *. rewrite get_frequency_band_product by assumption.
  pose proof (@band_of_product_range (k * sr) F ltac:(nia)) as Hb.
  set (b := band_of_product (k * sr) F) in *.
  unfold Zsum, len in *. cbn [fold_right] in *.
  assert (b = 0 \/ b = 1 \/ b = 2 \/ b = 3 \/ b = 4 \/ b = 5 \/ b = 6) as Hc by lia.
  clearbody b.
  repeat (destruct Hc as [-> | Hc]); [ .. | subst b];
    cbn [Z.eqb Pos.eqb length]; lia.
Qed.

(** X3. For a positive frame size and a non-negative sample rate every bin
    of the half spectrum falls in one of the bands 0..6: the seven bin
    counts sum to [F // 2], and the sentinel band has no bin. *)
Theorem count_bins_partition :
  Zsum (map (count_bins sr F) (range 7)) = F / 2 /\ count_bins sr F 7 = 0.
Proof.
  assert (0 <= F / 2) as H2 by (apply Z.div_pos; lia).
  split.
  - unfold count_bins. rewrite count_bands_of.
    + unfold len. rewrite length_range. lia.
    + intros k Hk. apply In_range in Hk. lia.
  - unfold count_bins.
    assert (forall l : list Z, (forall k, In k l -> 0 <= k) ->
              filter (fun k => match get_frequency_band k sr F with
                               | Ok b => (b =? 7)
                               | Raise _ => false
                               end) l = []) as Hnone.
    { induction l as [|k l IH]; intros Hl; [reflexivity|].
      cbn [filter]. rewrite get_frequency_band_product by assumption.
      pose proof (@band_of_product_range (k * sr) F
                    ltac:(pose proof (Hl k (or_introl eq_refl)); nia)) as Hb.
      destruct (Z.eqb_spec (band_of_product (k * sr) F) 7); [lia|].
      apply IH. intros j Hj. apply Hl. now right. }
    rewrite Hnone; [reflexivity|].
    intros k Hk. apply In_range in Hk. lia.
Qed.

End BandPartition.

Lemma count_bins_partition_witness :
  Zsum (map (count_bins 44100 2048) (range 7)) = (2048 / 2)%Z /\
  count_bins 44100 2048 7 = 0%Z.
Proof.
  apply (@count_bins_partition 44100 2048); [reflexivity | discriminate].
Defined.

(** ** Band Mapper: the hue list *)

Section HueList.

Local Open Scope Z_scope.

Lemma Ok_inj {T : Type} (a b : T) : Ok a = Ok b -> a = b.
Proof. intros H. now injection H. Qed.

Lemma band_in_list (band : Z) :
  0 <= band <= 6 ->
  band = 0 \/ band = 1 \/ band = 2 \/ band = 3 \/ band = 4 \/ band = 5 \/ band = 6.
Proof. lia. Qed.

(** X4. [band_to_hue] indexes a list of seven hues: band ids above 6 or
    below -7 raise IndexError, ids -7..-1 count from the end of the list,
    and over the bands 0..6 the hue is the table's, lies in [[0, 0.9]] and
    strictly increases with the band, so different bands have different
    hues. *)
Theorem band_to_hue_index (band : Z) :
  ((band < -7 \/ 6 < band) -> band_to_hue band = Raise IndexError) /\
  (-7 <= band < 0 -> band_to_hue band = band_to_hue (band + 7)) /\
  (0 <= band <= 6 ->
     exists q, band_to_hue band = Ok q /\ hue_table band = Some q /\
               (0 <= q <= 9 # 10)%Q) /\
  (forall band' q q',
     0 <= band < band' -> band' <= 6 ->
     band_to_hue band = Ok q -> band_to_hue band' = Ok q' -> (q < q')%Q).
Proof.
  split; [|split; [|split]].
  - intros [Hlo|Hhi]; unfold band_to_hue, getitem.
    + change (len hue_values) with 7.
      destruct (Z.ltb_spec band 0); [|lia].
      destruct (Z.ltb_spec (band + 7) 0); [reflexivity | lia].
    + destruct (Z.ltb_spec band 0); [lia|].
      destruct (Z.ltb_spec band 0); [lia|].
      assert (nth_error hue_values (Z.to_nat band) = None) as ->;
        [apply nth_error_None; cbn; lia | reflexivity].
  - intros Hb.
    assert (band = -7 \/ band = -6 \/ band = -5 \/ band = -4 \/ band = -3 \/
            band = -2 \/ band = -1) as Hc by lia.
    repeat (destruct Hc as [-> | Hc]); [ .. | subst band]; reflexivity.
  - intros Hb. apply band_in_list in Hb.
    repeat (destruct Hb as [-> | Hb]); [ .. | subst band];
      eexists; (split; [reflexivity|]); (split; [reflexivity|]);
      split; discriminate.
  - intros band' q q' Hb Hb' Hq Hq'.
    assert (0 <= band <= 6) as H1 by lia. assert (0 <= band' <= 6) as H2 by lia.
    apply band_in_list in H1, H2.
    (repeat (destruct H1 as [-> | H1]); [ .. | subst band]);
      (repeat (destruct H2 as [-> | H2]); [ .. | subst band']); try lia;
      cbv in Hq, Hq'; apply Ok_inj in Hq; apply Ok_inj in Hq'; subst q q';
      reflexivity.
Qed.

End HueList.

(** ** Polar Renderer: what the loop builds *)

Section MoreLists.

Context {A B : Type}.

Lemma Forall2_nth_error_l (P : A -> B -> Prop) (l : list A) (l' : list B) :
  Forall2 P l l' ->
  forall n x, nth_error l n = Some x -> exists y, nth_error l' n = Some y /\ P x y.
Proof.
  induction 1 as [|x y l l' Hxy _ IH]; intros [|n] z Hz; cbn in *; try discriminate.
  - injection Hz as <-. eauto.
  - eauto.
Qed.

Lemma mapM_Raise (f : A -> result B) (l : list A) (e : exn) :
  mapM f l = Raise e -> exists x, In x l /\ f x = Raise e.
Proof.
  induction l as [|x l IH]; cbn [mapM]; [discriminate|].
  destruct (f x) as [y|e'] eqn:Hx; cbn [bind].
  - destruct (mapM f l) as [ys|e'']; cbn [bind]; [discriminate|].
    intros H. injection H as ->. destruct IH as (z & Hz & Hfz); [reflexivity|].
    exists z. split; [now right | assumption].
  - intros H. injection H as ->. exists x. split; [now left | assumption].
Qed.

Lemma getitem_Raise (l : list A) (i : Z) (e : exn) :
  getitem l i = Raise e -> e = IndexError.
Proof.
  unfold getitem. destruct (_ <? 0)%Z; [congruence|].
  destruct (nth_error l _); [discriminate | congruence].
Qed.

Lemma getitem_nonneg (l : list A) (i : Z) (x : A) :
  (0 <= i)%Z -> getitem l i = Ok x -> nth_error l (Z.to_nat i) = Some x.
Proof.
  intros Hi. unfold getitem. destruct (Z.ltb_spec i 0); [lia|].
  destruct (Z.ltb_spec i 0); [lia|].
  destruct (nth_error l (Z.to_nat i)); [congruence | discriminate].
Qed.

Lemma nth_error_range2 (a b : Z) (j : nat) :
  (a + Z.of_nat j < b)%Z -> nth_error (range2 a b) j = Some (a + Z.of_nat j)%Z.
Proof.
  intros H. unfold range2. rewrite nth_error_map, nth_error_range by lia.
  reflexivity.
Qed.

Lemma length_range2 (a b : Z) : length (range2 a b) = Z.to_nat (b - a).
Proof. unfold range2. now rewrite length_map, length_range. Qed.

Lemma range_snoc (n : Z) : (1 <= n)%Z -> range n = range (n - 1) ++ [(n - 1)%Z].
Proof.
  intros Hn. unfold range.
  replace (Z.to_nat n) with (S (Z.to_nat (n - 1))) by lia.
  rewrite seq_S, map_app. cbn [map Nat.add]. repeat f_equal. lia.
Qed.

End MoreLists.

Lemma take_columns_cell {T : Type} (M C : matrix T) (columns : list Z) :
  take_columns M columns = Ok C ->
  length C = length M /\
  (forall row, In row C -> length row = length columns) /\
  (forall r j c, nth_error columns j = Some c -> (0 <= c)%Z ->
                 cell C r j = cell M r (Z.to_nat c)).
Proof.
  unfold take_columns. intros H. apply mapM_Forall2 in H.
  pose proof (Forall2_length_eq H) as Hlen.
  split; [now symmetry|]. split.
  - intros row Hrow. apply In_nth_error in Hrow. destruct Hrow as [r Hr].
    destruct (Forall2_nth_error_r H _ Hr) as (rowM & _ & Hcols).
    apply mapM_Forall2, Forall2_length_eq in Hcols. now symmetry.
  - intros r j c Hj Hc. unfold cell.
    destruct (nth_error M r) as [rowM|] eqn:HrM.
    + destruct (Forall2_nth_error_l H _ HrM) as (row & -> & Hcols).
      apply mapM_Forall2 in Hcols.
      destruct (Forall2_nth_error_l Hcols _ Hj) as (x & -> & Hx).
      symmetry. now apply getitem_nonneg.
    + assert (nth_error C r = None) as ->; [|reflexivity].
      apply nth_error_None. apply nth_error_None in HrM. lia.
Qed.

Section RendererStructure.

Local Open Scope Z_scope.

Variable hsv_array : matrix hsv.

Lemma draw_bands_meshes_from (bands : list Z) :
  forall start ms,
    draw_bands hsv_array bands start = Ok ms -> meshes_from hsv_array bands start ms.
Proof.
  induction bands as [|band rest IH]; intros start ms H; cbn [draw_bands] in H.
  - injection H as <-. exact I.
  - apply bind_Ok in H. destruct H as (outer & Houter & H).
    apply bind_Ok in H. destruct H as (inner & Hinner & H).
    apply bind_Ok in H. destruct H as (cells & Hcells & H).
    apply bind_Ok in H. destruct H as (ms' & Hms' & H).
    injection H as <-. cbn [meshes_from]. split; [|now apply IH].
    repeat split; assumption.
Qed.

(** The seven meshes of a successful run, with the columns they start at. *)
Lemma plot_meshes (frame_size sample_rate : Z) (ms : list mesh) :
  plot_polar_spectrogram hsv_array frame_size sample_rate = Ok ms ->
  exists m0 m1 m2 m3 m4 m5 m6,
    ms = [m0; m1; m2; m3; m4; m5; m6] /\
    mesh_of_band hsv_array 0 0 m0 /\
    mesh_of_band hsv_array 1 2 m1 /\
    mesh_of_band hsv_array 2 6 m2 /\
    mesh_of_band hsv_array 3 11 m3 /\
    mesh_of_band hsv_array 4 43 m4 /\
    mesh_of_band hsv_array 5 86 m5 /\
    mesh_of_band hsv_array 6 128 m6.
Proof.
  intros H. unfold plot_polar_spectrogram in H.
  apply draw_bands_meshes_from in H.
  change (range 7) with [0; 1; 2; 3; 4; 5; 6] in H.
  destruct ms as [|m0 [|m1 [|m2 [|m3 [|m4 [|m5 [|m6 [|m7 ms]]]]]]]];
    cbn [meshes_from] in H; try tauto;
    try (decompose [and] H; contradiction).
  destruct H as (H0 & H1 & H2 & H3 & H4 & H5 & H6 & _).
  exists m0, m1, m2, m3, m4, m5, m6. repeat split; try apply H0; try apply H1;
    try apply H2; try apply H3; try apply H4; try apply H5; try apply H6.
Qed.

End RendererStructure.

Section RendererProperties.

Local Open Scope Z_scope.

Variable hsv_array : matrix hsv.
Variables (frame_size sample_rate : Z).
Variable ms : list mesh.
Hypothesis Hplot : plot_polar_spectrogram hsv_array frame_size sample_rate = Ok ms.

(** X5. Whatever the array, frame size and sample rate, a successful run
    draws the columns 0..511 and no other, each exactly once and in
    order: columns 0-1 in band 0, 2-5 in band 1, 6-10 in band 2, 11-42 in
    band 3, 43-85 in band 4, 86-127 in band 5 and 128-511 in band 6. *)
Theorem plot_columns_partition :
  map band_columns ms =
    [range2 0 2; range2 2 6; range2 6 11; range2 11 43; range2 43 86;
     range2 86 128; range2 128 512] /\
  concat (map band_columns ms) = range 512.
Proof.
  destruct (plot_meshes _ _ _ Hplot)
    as (m0 & m1 & m2 & m3 & m4 & m5 & m6 & -> & H0 & H1 & H2 & H3 & H4 & H5 & H6).
  destruct H0 as (_ & E0 & _), H1 as (_ & E1 & _), H2 as (_ & E2 & _),
           H3 as (_ & E3 & _), H4 as (_ & E4 & _), H5 as (_ & E5 & _),
           H6 as (_ & E6 & _).
  cbn [map]. rewrite E0, E1, E2, E3, E4, E5, E6.
  split; vm_compute; reflexivity.
Qed.

Lemma mesh_cells (band start : Z) (m : mesh) :
  mesh_of_band hsv_array band start m -> 0 <= start ->
  length (band_cells m) = length hsv_array /\
  (forall row, In row (band_cells m) -> len row = Z.max 0 (band_to_numbins band)) /\
  (forall r j, 0 <= j < band_to_numbins band ->
     cell (band_cells m) r (Z.to_nat j) = cell hsv_array r (Z.to_nat (start + j))).
Proof.
  intros (_ & Ecols & _ & _ & Htake & _) Hstart.
  apply take_columns_cell in Htake. destruct Htake as (Hlen & Hrows & Hcell).
  split; [assumption|]. split.
  - intros row Hrow. unfold len. rewrite (Hrows row Hrow), Ecols, length_range2. lia.
  - intros r j Hj. apply Hcell; [|lia].
    rewrite Ecols, nth_error_range2 by lia. f_equal. lia.
Qed.

(** X6. The mesh of a band holds, for every frame, the cells of the
    band's columns: as many rows as the array, [band_to_numbins] cells in
    each, cell [j] of a row being the array's cell in column
    [band_start + j]; the angular grid has one edge more than there are
    frames. *)
Theorem plot_mesh_cells (m : mesh) :
  In m ms ->
  length (band_cells m) = length hsv_array /\
  theta_edges m = len hsv_array + 1 /\
  (forall row, In row (band_cells m) -> len row = band_to_numbins (mesh_band m)) /\
  (forall r j, 0 <= j < band_to_numbins (mesh_band m) ->
     cell (band_cells m) r (Z.to_nat j)
     = cell hsv_array r (Z.to_nat (band_start (mesh_band m) + j))).
Proof.
  destruct (plot_meshes _ _ _ Hplot)
    as (m0 & m1 & m2 & m3 & m4 & m5 & m6 & -> & H0 & H1 & H2 & H3 & H4 & H5 & H6).
  intros Hin. cbn [In] in Hin.
  repeat (destruct Hin as [<- | Hin]); try contradiction;
    match goal with
    | H : mesh_of_band _ ?b ?start ?m |- context [band_cells ?m] =>
        pose proof (mesh_cells H ltac:(lia)) as (Hl & Hr & Hc);
        destruct H as (-> & _ & _ & Ht & _)
    end;
    (split; [exact Hl|]); (split; [exact Ht|]); (split; [exact Hr | exact Hc]).
Qed.

End RendererProperties.

Lemma take_columns_Raise {T : Type} (M : matrix T) (columns : list Z) (e : exn) :
  take_columns M columns = Raise e -> e = IndexError.
Proof.
  unfold take_columns. intros H.
  apply mapM_Raise in H. destruct H as (row & _ & H).
  apply mapM_Raise in H. destruct H as (c & _ & H).
  eapply getitem_Raise; eauto.
Qed.

Lemma draw_bands_Raise (hsv_array : matrix hsv) (bands : list Z) :
  forall start e, draw_bands hsv_array bands start = Raise e -> e = IndexError.
Proof.
  induction bands as [|band rest IH]; intros start e H; cbn [draw_bands] in H;
    [discriminate|].
  destruct (getitem band_radii band) as [outer|e1] eqn:E1; cbn [bind] in H;
    [|injection H as <-; eapply getitem_Raise; eauto].
  destruct (getitem band_radii (band + 1)) as [inner|e2] eqn:E2; cbn [bind] in H;
    [|injection H as <-; eapply getitem_Raise; eauto].
  destruct (take_columns hsv_array _) as [cells|e3] eqn:E3; cbn [bind] in H;
    [|injection H as <-; eapply take_columns_Raise; eauto].
  destruct (draw_bands hsv_array rest _) as [ms'|e4] eqn:E4; cbn [bind] in H;
    [discriminate|].
  injection H as <-. eapply IH; eauto.
Qed.

(** X7. An array with at least one frame and fewer than 512 columns makes
    the renderer raise IndexError, whatever the frame size passed to it:
    the column layout is fixed by [band_to_numbins]. *)
Theorem plot_narrow_array_raises (row : list hsv) (rest : matrix hsv)
    (frame_size sample_rate : Z) :
  (len row < 512)%Z ->
  plot_polar_spectrogram (row :: rest) frame_size sample_rate = Raise IndexError.
Proof.
  intros Hrow.
  destruct (plot_polar_spectrogram (row :: rest) frame_size sample_rate)
    as [ms|e] eqn:Hplot.
  - exfalso.
    destruct (plot_meshes _ _ _ Hplot)
      as (m0 & m1 & m2 & m3 & m4 & m5 & m6 & _ & _ & _ & _ & _ & _ & _ & H6).
    destruct H6 as (_ & Ecols & _ & _ & Htake & _).
    rewrite Ecols in Htake. unfold take_columns in Htake.
    apply mapM_Forall2 in Htake.
    destruct (Forall2_nth_error_l Htake 0 eq_refl) as (row' & _ & Hcols).
    apply mapM_Forall2 in Hcols.
    destruct (Forall2_nth_error_l Hcols 383 (x := 511%Z)) as (x & _ & Hx).
    { apply (@nth_error_range2 128 (128 + band_to_numbins 6) 383). reflexivity. }
    apply getitem_nonneg in Hx; [|discriminate].
    assert (Z.to_nat 511 < length row)%nat by (apply nth_error_Some; congruence).
    unfold len in Hrow. lia.
  - f_equal. unfold plot_polar_spectrogram in Hplot.
    eapply draw_bands_Raise; eauto.
Qed.

Lemma plot_narrow_array_raises_witness :
  plot_polar_spectrogram ([(Fin 0, Fin 0, Fin 0)] :: []) 2 44100 = Raise IndexError.
Proof.
  apply (@plot_narrow_array_raises [(Fin 0, Fin 0, Fin 0)] [] 2 44100).
  reflexivity.
Defined.

(** ** Polar Renderer: radial grid and separator lines *)

Section Linspace.

Local Open Scope Z_scope.

Lemma linspace_snoc (a b : Q) (num : Z) :
  2 <= num ->
  linspace a b num
  = map (fun i => inject_Z i * ((b - a) / inject_Z (num - 1)) + a)%Q (range (num - 1))
    ++ [b].
Proof.
  intros Hn. unfold linspace. destruct (Z.ltb_spec 1 num); [|lia].
  rewrite (range_snoc (n := num)) by lia. rewrite map_app. cbn [map].
  now rewrite removelast_last.
Qed.

Lemma linspace_nth (a b : Q) (num : Z) :
  2 <= num ->
  len (linspace a b num) = num /\
  (forall i, 0 <= i < num - 1 ->
     nth_error (linspace a b num) (Z.to_nat i)
     = Some (inject_Z i * ((b - a) / inject_Z (num - 1)) + a)%Q) /\
  nth_error (linspace a b num) (Z.to_nat (num - 1)) = Some b.
Proof.
  intros Hn. rewrite linspace_snoc by assumption.
  split; [|split].
  - unfold len. rewrite length_app, length_map, length_range. cbn [length]. lia.
  - intros i Hi. rewrite nth_error_app1 by (rewrite length_map, length_range; lia).
    rewrite nth_error_map, nth_error_range by lia. cbn [option_map].
    now rewrite Z2Nat.id by lia.
  - rewrite nth_error_app2 by (rewrite length_map, length_range; lia).
    rewrite length_map, length_range, Nat.sub_diag. reflexivity.
Qed.

End Linspace.

Section RendererGrid.

Local Open Scope Z_scope.

Variable hsv_array : matrix hsv.
Variables (frame_size sample_rate : Z).
Variable ms : list mesh.
Hypothesis Hplot : plot_polar_spectrogram hsv_array frame_size sample_rate = Ok ms.

Lemma mesh_r_edges (band start : Z) (m : mesh) :
  mesh_of_band hsv_array band start m -> 1 <= band_to_numbins band ->
  len (r_edges m) = band_to_numbins band + 1 /\
  (forall i, 0 <= i < band_to_numbins band ->
     exists v, nth_error (r_edges m) (Z.to_nat i) = Some v /\
               (v == inner_radius m
                     + inject_Z i * ((outer_radius m - inner_radius m)
                                     / inject_Z (band_to_numbins band)))%Q) /\
  nth_error (r_edges m) (Z.to_nat (band_to_numbins band)) = Some (outer_radius m).
Proof.
  intros (_ & _ & -> & _) Hn.
  destruct (@linspace_nth (inner_radius m) (outer_radius m) (band_to_numbins band + 1))
    as (Hlen & Hnth & Hlast); [lia|].
  replace (band_to_numbins band + 1 - 1) with (band_to_numbins band) in * by lia.
  split; [assumption|]. split; [|assumption].
  intros i Hi. eexists. split; [apply Hnth; assumption|]. ring.
Qed.

(** X8. The radial grid of a band's mesh has one edge more than the band
    has bins; the edges run from the band's inner radius to its outer
    radius in equal steps, so every bin of a band gets the same radial
    width, the band's thickness divided by its bin count. *)
Theorem plot_mesh_r_edges (m : mesh) :
  In m ms ->
  len (r_edges m) = band_to_numbins (mesh_band m) + 1 /\
  (forall i, 0 <= i < band_to_numbins (mesh_band m) ->
     exists v, nth_error (r_edges m) (Z.to_nat i) = Some v /\
               (v == inner_radius m
                     + inject_Z i * ((outer_radius m - inner_radius m)
                                     / inject_Z (band_to_numbins (mesh_band m))))%Q) /\
  nth_error (r_edges m) (Z.to_nat (band_to_numbins (mesh_band m)))
  = Some (outer_radius m).
Proof.
  destruct (plot_meshes _ _ _ Hplot)
    as (m0 & m1 & m2 & m3 & m4 & m5 & m6 & -> & H0 & H1 & H2 & H3 & H4 & H5 & H6).
  intros Hin. cbn [In] in Hin.
  repeat (destruct Hin as [<- | Hin]); try contradiction;
    match goal with
    | H : mesh_of_band _ ?b ?start ?m |- context [r_edges ?m] =>
        pose proof (mesh_r_edges H ltac:(discriminate)) as Hm;
        destruct H as (-> & _)
    end;
    exact Hm.
Qed.

Ltac radius_of H :=
  match type of H with
  | getitem band_radii ?c = _ =>
      let v := eval vm_compute in (getitem band_radii c) in
      change (getitem band_radii c) with v in H; apply Ok_inj in H
  end.

(** X9. Separator lines are drawn at the outer radius of the bands 0..5,
    that is at 10, 8.75, 7.5, 6.25, 5 and 3.75: one on the outer rim of
    the disc and none at 2.5, the boundary between the bands 5 and 6, nor
    at the inner radius 1.25. *)
Theorem plot_boundary_lines :
  exists lines,
    map boundary_line ms = map (@Some Q) lines ++ [None] /\
    Forall2 Qeq lines [max_radius; 35 # 4; 15 # 2; 25 # 4; 5; 15 # 4]%Q /\
    Forall (fun q => ~ (q == 5 # 2)%Q /\ ~ (q == min_radius)%Q) lines.
Proof.
  pose proof Hplot as Hdraw. unfold plot_polar_spectrogram in Hdraw.
  apply draw_bands_meshes in Hdraw.
  destruct (plot_meshes _ _ _ Hplot)
    as (m0 & m1 & m2 & m3 & m4 & m5 & m6 & -> & H0 & H1 & H2 & H3 & H4 & H5 & H6).
  change (range 7) with [0; 1; 2; 3; 4; 5; 6] in Hdraw.
  repeat match goal with
         | H : Forall2 _ (_ :: _) _ |- _ => inversion H; subst; clear H
         | H : Forall2 _ [] _ |- _ => clear H
         end.
  repeat match goal with
         | H : band_mesh _ _ |- _ =>
             let Ho := fresh "Ho" in
             destruct H as (_ & Ho & _); radius_of Ho
         end.
  repeat match goal with
         | H : mesh_of_band _ _ _ _ |- _ =>
             let Hl := fresh "Hl" in
             destruct H as (_ & _ & _ & _ & _ & Hl); cbn [Z.ltb Z.compare Pos.compare
               Pos.compare_cont] in Hl
         end.
  exists [outer_radius m0; outer_radius m1; outer_radius m2; outer_radius m3;
          outer_radius m4; outer_radius m5].
  cbn [map app].
  repeat match goal with
         | H : boundary_line _ = _ |- _ => rewrite H; clear H
         end.
  split; [reflexivity|].
  repeat match goal with
         | H : _ = outer_radius _ |- _ => rewrite <- H; clear H
         end.
  split; repeat constructor; vm_compute; congruence.
Qed.

End RendererGrid.

(** ** Polar Renderer and Band Mapper: when the fixed layout fits *)

Section LayoutAndMapper.

Local Open Scope Z_scope.

Lemma band_of_product_columns (a b band sr c : Z) :
  48000 <= sr <= 48188 -> a <= c < b ->
  In (a, b, band)
     [(0, 2, 0); (2, 6, 1); (6, 11, 2); (11, 43, 3); (43, 86, 4); (86, 128, 5);
      (128, 512, 6)] ->
  band_of_product (c * sr) 1024 = band.
Proof.
  intros Hsr Hc Hin. cbn [In] in Hin. unfold band_of_product.
  repeat (destruct Hin as [E | Hin]; [injection E as <- <- <-|]); try contradiction;
    match goal with
    | Hc : ?a <= c < ?b |- _ =>
        assert (a * 48000 <= c * sr) by nia;
        assert (c * sr <= (b - 1) * 48188) by nia
    end;
    repeat match goal with
           | |- context [(?x <? ?y)] => destruct (Z.ltb_spec x y); try lia
           end.
Qed.

Variable hsv_array : matrix hsv.
Variables (frame_size sample_rate : Z).
Variable ms : list mesh.
Hypothesis Hplot : plot_polar_spectrogram hsv_array frame_size sample_rate = Ok ms.

(** X10. The renderer's fixed column layout and the Band Mapper agree,
    every column drawn in a band's annulus being a bin of that band, exactly
    when the sample rate is between 48000 and 48188 Hz (frame size 1024).
    At any other rate, 44100 Hz included, some annulus holds columns of
    another band. *)
Theorem layout_matches_band_mapper (sr : Z) :
  (forall m c, In m ms -> In c (band_columns m) ->
               get_frequency_band c sr 1024 = Ok (mesh_band m))
  <-> 48000 <= sr <= 48188.
Proof.
  destruct (plot_meshes _ _ _ Hplot)
    as (m0 & m1 & m2 & m3 & m4 & m5 & m6 & -> & H0 & H1 & H2 & H3 & H4 & H5 & H6).
  split.
  - intros Hall.
    pose proof (Hall m6 128) as L6. pose proof (Hall m4 85) as L4.
    destruct H6 as (E6 & C6 & _), H4 as (E4 & C4 & _).
    rewrite E6, C6 in L6. rewrite E4, C4 in L4.
    rewrite get_frequency_band_product in L6, L4 by lia.
    specialize (L6 ltac:(cbn [In]; tauto) ltac:(apply In_range2; cbn; lia)).
    specialize (L4 ltac:(cbn [In]; tauto) ltac:(apply In_range2; cbn; lia)).
    apply Ok_inj in L6, L4. unfold band_of_product in L6, L4.
    repeat match type of L6 with
           | context [(?x <? ?y)] => destruct (Z.ltb_spec x y); try lia
           end.
    repeat match type of L4 with
           | context [(?x <? ?y)] => destruct (Z.ltb_spec x y); try lia
           end.
  - intros Hsr m c Hm Hc. rewrite get_frequency_band_product by lia. f_equal.
    cbn [In] in Hm.
    repeat (destruct Hm as [<- | Hm]); try contradiction;
      match goal with
      | H : mesh_of_band _ ?b ?start ?m |- context [mesh_band ?m] =>
          destruct H as (-> & Ecols & _); rewrite Ecols in Hc;
          apply In_range2 in Hc;
          apply (@band_of_product_columns start (start + band_to_numbins b) b sr c
                   Hsr Hc); cbn; tauto
      end.
Qed.

End LayoutAndMapper.

Lemma plot_example :
  exists ms,
    plot_polar_spectrogram [repeat (Fin 0, Fin 0, Fin 0) 512] 1024 44100 = Ok ms.
Proof.
  destruct (@draw_bands_total [repeat (Fin 0, Fin 0, Fin 0) 512] 512) with
    (bands := range 7) (col := 0%Z) as (ms & Hms & _).
  - intros row [<-|[]]. rewrite len_repeat. discriminate.
  - change (range 7) with [0; 1; 2; 3; 4; 5; 6]%Z. repeat constructor; discriminate.
  - discriminate.
  - discriminate.
  - exists ms. exact Hms.
Qed.

Lemma plot_columns_partition_witness :
  exists ms,
    plot_polar_spectrogram [repeat (Fin 0, Fin 0, Fin 0) 512] 1024 44100 = Ok ms /\
    map band_columns ms =
      [range2 0 2; range2 2 6; range2 6 11; range2 11 43; range2 43 86;
       range2 86 128; range2 128 512] /\
    concat (map band_columns ms) = range 512.
Proof.
  destruct plot_example as [ms Hms]. exists ms. split; [exact Hms|].
  exact (@plot_columns_partition _ _ _ _ Hms).
Defined.

Lemma plot_mesh_cells_witness :
  exists ms m,
    plot_polar_spectrogram [repeat (Fin 0, Fin 0, Fin 0) 512] 1024 44100 = Ok ms /\
    In m ms /\
    length (band_cells m) = length [repeat (Fin 0, Fin 0, Fin 0) 512] /\
    theta_edges m = (len [repeat (Fin 0, Fin 0, Fin 0) 512] + 1)%Z /\
    (forall row, In row (band_cells m) -> len row = band_to_numbins (mesh_band m)) /\
    (forall r j, (0 <= j < band_to_numbins (mesh_band m))%Z ->
       cell (band_cells m) r (Z.to_nat j)
       = cell [repeat (Fin 0, Fin 0, Fin 0) 512] r
              (Z.to_nat (band_start (mesh_band m) + j))).
Proof.
  destruct plot_example as [ms Hms].
  destruct (plot_meshes _ _ _ Hms) as (m0 & m1 & m2 & m3 & m4 & m5 & m6 & E & _).
  assert (In m3 ms) as Hin by (rewrite E; cbn [In]; tauto).
  exists ms, m3. split; [exact Hms|]. split; [exact Hin|].
  exact (@plot_mesh_cells _ _ _ _ Hms m3 Hin).
Defined.

Lemma plot_mesh_r_edges_witness :
  exists ms m,
    plot_polar_spectrogram [repeat (Fin 0, Fin 0, Fin 0) 512] 1024 44100 = Ok ms /\
    In m ms /\
    len (r_edges m) = (band_to_numbins (mesh_band m) + 1)%Z /\
    (forall i, (0 <= i < band_to_numbins (mesh_band m))%Z ->
       exists v, nth_error (r_edges m) (Z.to_nat i) = Some v /\
                 (v == inner_radius m
                       + inject_Z i * ((outer_radius m - inner_radius m)
                                       / inject_Z (band_to_numbins (mesh_band m))))%Q) /\
    nth_error (r_edges m) (Z.to_nat (band_to_numbins (mesh_band m)))
    = Some (outer_radius m).
Proof.
  destruct plot_example as [ms Hms].
  destruct (plot_meshes _ _ _ Hms) as (m0 & m1 & m2 & m3 & m4 & m5 & m6 & E & _).
  assert (In m3 ms) as Hin by (rewrite E; cbn [In]; tauto).
  exists ms, m3. split; [exact Hms|]. split; [exact Hin|].
  exact (@plot_mesh_r_edges _ _ _ _ Hms m3 Hin).
Defined.

Lemma plot_boundary_lines_witness :
  exists ms,
    plot_polar_spectrogram [repeat (Fin 0, Fin 0, Fin 0) 512] 1024 44100 = Ok ms /\
    exists lines,
      map boundary_line ms = map (@Some Q) lines ++ [None] /\
      Forall2 Qeq lines [max_radius; 35 # 4; 15 # 2; 25 # 4; 5; 15 # 4]%Q /\
      Forall (fun q => ~ (q == 5 # 2)%Q /\ ~ (q == min_radius)%Q) lines.
Proof.
  destruct plot_example as [ms Hms]. exists ms. split; [exact Hms|].
  exact (@plot_boundary_lines _ _ _ _ Hms).
Defined.

Lemma layout_matches_band_mapper_witness :
  exists ms,
    plot_polar_spectrogram [repeat (Fin 0, Fin 0, Fin 0) 512] 1024 44100 = Ok ms /\
    ((forall m c, In m ms -> In c (band_columns m) ->
                  get_frequency_band c 44100 1024 = Ok (mesh_band m))
     <-> (48000 <= 44100 <= 48188)%Z).
Proof.
  destruct plot_example as [ms Hms]. exists ms. split; [exact Hms|].
  exact (@layout_matches_band_mapper _ _ _ _ Hms 44100%Z).
Defined.

(** ** Framer/Transformer: trailing samples, gain, rejected parameters *)

Section FramerMore.

Local Open Scope Z_scope.

Lemma len_app {T : Type} (l l' : list T) : len (l ++ l') = len l + len l'.
Proof. unfold len. rewrite length_app. lia. Qed.

Lemma len_nonneg {T : Type} (l : list T) : 0 <= len l.
Proof. unfold len. lia. Qed.

Lemma len_map {T U : Type} (f : T -> U) (l : list T) : len (map f l) = len l.
Proof. unfold len. now rewrite length_map. Qed.

(** X11. Samples after the last complete frame do not reach the transform
    matrix: appending samples that do not complete another hop leaves the
    result unchanged. *)
Theorem apply_mdct_ignores_tail (audio tail : list R) (F H sr : Z) :
  2 <= F -> 0 < H -> sr <> 0 -> F <= len audio ->
  (len audio - F) mod H + len tail < H ->
  apply_mdct (audio ++ tail) F H sr = apply_mdct audio F H sr.
Proof.
  intros HF HH Hsr HN Htail.
  pose proof (len_nonneg tail) as Ht.
  rewrite !apply_mdct_frames by (rewrite ?len_app; lia).
  rewrite len_app.
  assert ((len audio + len tail - F) / H = (len audio - F) / H) as ->.
  { symmetry.
    apply Z.div_unique with (r := (len audio - F) mod H + len tail).
    - left. pose proof (Z.mod_pos_bound (len audio - F) H HH). lia.
    - pose proof (Z.div_mod (len audio - F) H ltac:(lia)). lia. }
  f_equal. apply map_ext_in. intros n Hn. apply In_range in Hn.
  destruct (@frame_inside audio F H HF HH n HN Hn) as [Hs He].
  do 2 f_equal. unfold windowed_frame. apply map_ext_in. intros i Hi.
  apply In_range in Hi. f_equal.
  apply app_nth1. unfold len in He. lia.
Qed.

Lemma apply_mdct_ignores_tail_witness :
  apply_mdct ([1; 2; 3; 4; 5; 6] ++ [7])%R 4 2 44100
  = apply_mdct [1; 2; 3; 4; 5; 6]%R 4 2 44100.
Proof.
  apply (@apply_mdct_ignores_tail [1; 2; 3; 4; 5; 6]%R [7]%R 4 2 44100);
    [discriminate | reflexivity | discriminate | discriminate | reflexivity].
Defined.

Lemma nth_map_scale (c : R) (l : list R) (k : nat) :
  nth k (map (Rmult c) l) 0%R = (c * nth k l 0)%R.
Proof.
  transitivity (nth k (map (Rmult c) l) (c * 0)%R); [f_equal; ring|].
  apply map_nth.
Qed.

Lemma windowed_frame_scale (c : R) (audio : list R) (F H n : Z) :
  windowed_frame (map (Rmult c) audio) F H n
  = map (Rmult c) (windowed_frame audio F H n).
Proof.
  unfold windowed_frame. rewrite map_map. apply map_ext. intros i.
  rewrite nth_map_scale. ring.
Qed.

Lemma Rsum_dct_scale (c : R) (N k : nat) (l : list nat) :
  forall x : list R,
    Rsum (map (dct_term N k) (combine l (map (Rmult c) x)))
    = (c * Rsum (map (dct_term N k) (combine l x)))%R.
Proof.
  unfold Rsum.
  induction l as [|i l IH]; intros [|a x]; cbn [map combine fold_right];
    try ring.
  rewrite IH. unfold dct_term. cbn [fst snd]. ring.
Qed.

Lemma dct2_ortho_scale (c : R) (x : list R) :
  dct2_ortho (map (Rmult c) x) = map (Rmult c) (dct2_ortho x).
Proof.
  unfold dct2_ortho. rewrite length_map, map_map. apply map_ext. intros k.
  rewrite Rsum_dct_scale. ring.
Qed.

(** X12. The transform is homogeneous: multiplying every sample by a gain
    [c] multiplies every coefficient by [c], and the cases in which
    [apply_mdct] raises do not depend on the sample values. *)
Theorem apply_mdct_gain (c : R) (audio : list R) (F H sr : Z) :
  2 <= F -> 0 < H -> sr <> 0 ->
  apply_mdct (map (Rmult c) audio) F H sr
  = match apply_mdct audio F H sr with
    | Ok M => Ok (mmap (Rmult c) M)
    | Raise e => Raise e
    end.
Proof.
  intros HF HH Hsr.
  destruct (Z.le_gt_cases F (len audio)) as [HN|HN].
  - rewrite !apply_mdct_frames by (rewrite ?len_map; lia).
    rewrite len_map. cbv beta iota. unfold mmap. rewrite map_map.
    apply f_equal. apply map_ext. intros n.
    now rewrite windowed_frame_scale, dct2_ortho_scale, firstn_map.
  - destruct (Z.le_gt_cases (F - H) (len audio)).
    + rewrite !apply_mdct_short_empty by (rewrite ?len_map; lia). reflexivity.
    + rewrite !apply_mdct_short_raises by (rewrite ?len_map; lia). reflexivity.
Qed.

Lemma apply_mdct_gain_witness :
  apply_mdct (map (Rmult 2) [1; 2; 3; 4; 5]%R) 4 2 44100
  = match apply_mdct [1; 2; 3; 4; 5]%R 4 2 44100 with
    | Ok M => Ok (mmap (Rmult 2) M)
    | Raise e => Raise e
    end.
Proof.
  apply (@apply_mdct_gain 2%R [1; 2; 3; 4; 5]%R 4 2 44100);
    [discriminate | reflexivity | discriminate].
Defined.

(** X13. [apply_mdct] refuses a zero sample rate, every frame size below
    2 and a zero hop size: the exception is ZeroDivisionError for a zero
    sample rate, frame size or hop size, ValueError for a negative frame
    size and for frame size 1, where the unused minimum frequency is taken
    of an empty grid. *)
Theorem apply_mdct_rejects (audio : list R) (F H sr : Z) :
  (sr = 0 -> apply_mdct audio F H sr = Raise ZeroDivisionError) /\
  (sr <> 0 -> F = 0 -> apply_mdct audio F H sr = Raise ZeroDivisionError) /\
  (sr <> 0 -> F < 0 \/ F = 1 -> apply_mdct audio F H sr = Raise ValueError) /\
  (sr <> 0 -> 2 <= F -> H = 0 -> apply_mdct audio F H sr = Raise ZeroDivisionError).
Proof.
  split; [|split; [|split]].
  - intros ->. reflexivity.
  - intros Hsr ->. unfold apply_mdct. rewrite truediv_one by assumption.
    cbn [bind]. unfold fftfreq.
    assert (Qeq_bool (inject_Z 0 * (inject_Z 1 / inject_Z sr)) 0 = true) as ->;
      [|reflexivity].
    apply Qeq_bool_iff. apply Qmult_0_l.
  - intros Hsr HF. unfold apply_mdct. rewrite truediv_one by assumption.
    cbn [bind]. destruct HF as [HF| ->].
    + unfold fftfreq.
      assert (Qeq_bool (inject_Z F * (inject_Z 1 / inject_Z sr)) 0 = false) as ->.
      { apply not_true_iff_false. rewrite Qeq_bool_iff.
        unfold Qeq, Qdiv, Qmult, Qinv, inject_Z. destruct sr; cbn; [congruence|lia|lia]. }
      unfold check_dims. cbn [forallb]. destruct (Z.leb_spec 0 F); [lia|]. reflexivity.
    + destruct (@fftfreq_rate 1 sr) as (fs & -> & _); [lia|assumption|].
      cbn [bind]. rewrite slice_prefix by discriminate. reflexivity.
  - intros Hsr HF ->. unfold apply_mdct. rewrite truediv_one by assumption.
    cbn [bind].
    destruct (@frequency_grid_ok F sr (F / 2)) as (fs & -> & Hne); [lia|assumption|].
    cbn [bind].
    assert (1 <= F / 2) as H2 by (apply Z.div_le_lower_bound; lia).
    specialize (Hne H2).
    destruct (reduce_nonempty Qmin Hne) as [lo ->].
    destruct (reduce_nonempty Qmax Hne) as [hi ->]. reflexivity.
Qed.

End FramerMore.

(** ** Color Encoder: accepted inputs and output shape *)

Section EncoderShape.

Local Open Scope Z_scope.

Lemma concat_mmap {T U : Type} (f : T -> U) (M : matrix T) :
  concat (mmap f M) = map f (concat M).
Proof. unfold mmap. symmetry. apply concat_map. Qed.

Lemma shape_uniform_inv {T : Type} (M : matrix T) (w : nat) :
  shape M = repeat w (length M) -> Forall (fun row => length row = w) M.
Proof.
  unfold shape. induction M as [|row M IH]; cbn [map length repeat]; intros H;
    constructor.
  - now injection H.
  - apply IH. now injection H.
Qed.

(** The hue vector of the half spectrum exists for every frame size of at
    least one sample and every non-negative sample rate. *)
Lemma hue_row_exists (F sr : Z) :
  0 < F -> 0 <= sr ->
  exists hue_row,
    mapM (fun col =>
            band <- get_frequency_band col sr F ;;
            h <- band_to_hue band ;;
            Ok (Fin (Q2R h)))
         (range (F / 2)) = Ok hue_row /\
    length hue_row = Z.to_nat (F / 2).
Proof.
  intros HF Hsr.
  match goal with
  | |- exists _, mapM ?f ?l = _ /\ _ => destruct (@mapM_exists _ _ f l) as [hue_row Hrow]
  end.
  - intros col Hcol. apply In_range in Hcol.
    rewrite get_frequency_band_product by assumption. cbn [bind].
    pose proof (@band_of_product_range (col * sr) F ltac:(nia)) as Hb.
    destruct (@getitem_inside _ hue_values (band_of_product (col * sr) F))
      as (q & Hq & _); [cbn; lia|].
    unfold band_to_hue. rewrite Hq. cbn [bind]. eauto.
  - exists hue_row. split; [assumption|].
    apply mapM_Forall2, Forall2_length_eq in Hrow.
    now rewrite <- Hrow, length_range.
Qed.

Lemma mdct_to_hsv_rows {A : Type} (M : matrix R) (F sr : Z) (s : A) (out : matrix hsv) :
  valid_transform M F -> mdct_to_hsv M F sr s = Ok out ->
  Forall (fun row => len row = F / 2) out.
Proof.
  intros Hvalid Hout. apply Forall_forall. intros row Hrow.
  pose proof (@mdct_to_hsv_wide _ _ _ _ _ _ Hvalid Hout row Hrow) as Hge.
  destruct Hvalid as (_ & HW & Hrows).
  destruct (Z.le_gt_cases (len row) (F / 2)) as [Hle|Hgt]; [lia|]. exfalso.
  destruct (mdct_to_hsv_cells _ _ _ _ Hout)
    as (lo & hi & mx & hue_row & _ & _ & _ & _ & _ & Hinv).
  apply In_nth_error in Hrow. destruct Hrow as [r Hr].
  destruct (nth_error row (Z.to_nat (F / 2))) as [y|] eqn:Hy;
    [|apply nth_error_None in Hy; unfold len in Hgt; lia].
  destruct (Hinv r (Z.to_nat (F / 2)) y) as (h & x & _ & Hx & _).
  { unfold cell. now rewrite Hr. }
  unfold cell in Hx. destruct (nth_error M r) as [rowM|] eqn:HrM; [|discriminate].
  rewrite Forall_forall in Hrows.
  pose proof (Hrows rowM (nth_error_In _ _ HrM)) as HlenM. unfold len in HlenM.
  assert (Z.to_nat (F / 2) < length rowM)%nat by (apply nth_error_Some; congruence).
  lia.
Qed.

(** X14. For a positive sample rate and a frame size of at least 2 the
    Color Encoder accepts exactly the matrices with at least one frame and
    [F // 2] bins in every frame: for these it returns an array of the
    same shape, for every other matrix it raises ValueError. *)
Theorem mdct_to_hsv_accepts {A : Type} (M : matrix R) (F sr : Z) (s : A) :
  0 < sr -> 2 <= F ->
  (valid_transform M F ->
     exists out, mdct_to_hsv M F sr s = Ok out /\
                 length out = length M /\
                 Forall (fun row => len row = F / 2) out) /\
  (~ valid_transform M F -> mdct_to_hsv M F sr s = Raise ValueError).
Proof.
  intros Hsr HF. split.
  - intros Hvalid. destruct (mdct_to_hsv_total s Hvalid Hsr) as [out Hout].
    exists out. split; [assumption|]. split.
    + eapply mdct_to_hsv_length; eauto.
    + eapply mdct_to_hsv_rows; eauto.
  - intros Hinvalid. unfold mdct_to_hsv. rewrite mmap_log_magnitude.
    unfold amin, amax. rewrite !concat_mmap.
    destruct (concat M) as [|x xs] eqn:EM; [reflexivity|].
    cbn [map reduce bind].
    rewrite truediv_one by lia. cbn [bind].
    destruct (@fftfreq_rate F sr) as (fs & -> & _); [lia|lia|]. cbn [bind].
    assert (0 < F / 2) as HW by (Z.to_euclidean_division_equations; lia).
    unfold check_dims at 1. cbn [forallb].
    destruct (Z.leb_spec 0 (F / 2)); [|lia]. cbn [andb bind].
    destruct (@hue_row_exists F sr) as (hue_row & -> & Hlen); [lia|lia|].
    cbn [bind]. unfold stack3. rewrite shape_repeat, !shape_mmap.
    destruct (list_eq_dec Nat.eq_dec (repeat (length hue_row) (length M)) (shape M))
      as [E|_]; [|reflexivity].
    exfalso. apply Hinvalid. split; [|split; [assumption|]].
    + intros ->. discriminate.
    + symmetry in E. apply shape_uniform_inv in E.
      eapply Forall_impl; [|exact E]. cbv beta. intros row Hrow.
      unfold len. rewrite Hrow, Hlen. lia.
Qed.

End EncoderShape.

Lemma mdct_to_hsv_accepts_witness :
  (valid_transform [[0; 1]]%R 4 ->
     exists out, mdct_to_hsv [[0; 1]]%R 4 44100 1%Z = Ok out /\
                 length out = length [[0; 1]]%R /\
                 Forall (fun row => len row = (4 / 2)%Z) out) /\
  (~ valid_transform [[0; 1]]%R 4 ->
     mdct_to_hsv [[0; 1]]%R 4 44100 1%Z = Raise ValueError).
Proof.
  apply (@mdct_to_hsv_accepts Z [[0; 1]]%R 4 44100 1%Z); [reflexivity | discriminate].
Defined.

(** ** Color Encoder: when the output is not a number *)

Section EncoderDegeneracy.

Local Open Scope R_scope.

Lemma Rabs_le_0 (x : R) : Rabs x <= 0 -> x = 0.
Proof.
  intros H. destruct (Req_dec x 0) as [E|E]; [assumption|].
  apply Rabs_pos_lt in E. lra.
Qed.

Lemma brightness_cell_nan (lo x : R) :
  log_magnitude x = lo -> brightness_cell lo lo x = NaN.
Proof.
  intros <-. unfold brightness_cell, div.
  destruct (Req_dec_T (log_magnitude x - log_magnitude x) 0) as [_|n];
    [reflexivity | exfalso; apply n; ring].
Qed.

Context {A : Type}.
Variables (M : matrix R) (F sr : Z) (s : A) (out : matrix hsv).
Hypothesis Hout : mdct_to_hsv M F sr s = Ok out.

(** X15. The encoder never returns an infinity. In an array it returns,
    the hue is a number in every cell; the saturation is a number in every
    cell, unless the matrix is all zero, and then it is nan in every cell;
    the brightness is a number in every cell, unless all cells of the
    matrix have the same magnitude, and then it is nan in every cell. *)
Theorem encoder_degeneracy (r c : nat) (y : hsv) :
  cell out r c = Some y ->
  (exists h, hue_of y = Fin h) /\
  ((exists v, saturation_of y = Fin v) \/ saturation_of y = NaN) /\
  (saturation_of y = NaN <->
     forall r' c' x, cell M r' c' = Some x -> x = 0) /\
  ((exists v, brightness_of y = Fin v) \/ brightness_of y = NaN) /\
  (brightness_of y = NaN <->
     forall r1 c1 x1 r2 c2 x2,
       cell M r1 c1 = Some x1 -> cell M r2 c2 = Some x2 -> Rabs x1 = Rabs x2).
Proof.
  intros Hy.
  destruct (mdct_to_hsv_cells _ _ _ _ Hout)
    as (lo & hi & mx & hue_row & Hlo & Hhi & Hmx & Hhue & _ & Hinv).
  destruct (Hinv _ _ _ Hy) as (h & x & Hh & Hx & ->).
  apply amin_global_min in Hlo. apply amax_global_max in Hhi.
  apply (amax_global_max Rabs) in Hmx.
  destruct Hlo as ((rl & cl & xl & Hxl & El) & Hlo).
  destruct Hhi as ((rh & ch & xh & Hxh & Eh) & Hhi).
  destruct Hmx as ((rm & cm & xm & Hxm & Em) & Hmx).
  cbn [hue_of saturation_of brightness_of fst snd].
  split; [|split; [|split; [|split]]].
  - destruct (Forall2_nth_error_r Hhue _ Hh) as (col & _ & b & q & _ & _ & ->). eauto.
  - destruct (Req_dec mx 0) as [E|E].
    + right. rewrite E in Hmx |- *.
      rewrite (@Rabs_le_0 x (Hmx _ _ _ Hx)). apply saturation_cell_zero.
    + left. rewrite saturation_cell_finite by assumption. eauto.
  - destruct (Req_dec mx 0) as [E|E].
    + rewrite E in Hmx |- *.
      rewrite (@Rabs_le_0 x (Hmx _ _ _ Hx)).
      split; [|intros; apply saturation_cell_zero].
      intros _ r' c' x' Hx'. apply Rabs_le_0. eauto.
    + rewrite saturation_cell_finite by assumption.
      split; [discriminate|]. intros Hzero. exfalso. apply E.
      rewrite <- Em, (Hzero _ _ _ Hxm). apply Rabs_R0.
  - destruct (Req_dec lo hi) as [E|E].
    + right. rewrite <- E in Hhi |- *. apply brightness_cell_nan.
      apply Rle_antisym; eauto.
    + left. assert (lo < hi) by (pose proof (Hlo _ _ _ Hxh); lra).
      rewrite brightness_cell_finite by assumption. eauto.
  - destruct (Req_dec lo hi) as [E|E].
    + rewrite <- E in Hhi |- *.
      assert (forall r' c' x', cell M r' c' = Some x' -> log_magnitude x' = lo) as Hall
          by (intros; apply Rle_antisym; eauto).
      split; [|intros _; apply brightness_cell_nan; eauto].
      intros _ r1 c1 x1 r2 c2 x2 H1 H2. apply log_magnitude_inj.
      rewrite (Hall _ _ _ H1), (Hall _ _ _ H2). reflexivity.
    + assert (lo < hi) by (pose proof (Hlo _ _ _ Hxh); lra).
      rewrite brightness_cell_finite by assumption.
      split; [discriminate|]. intros Hconst. exfalso. apply E.
      rewrite <- El, <- Eh. unfold log_magnitude.
      now rewrite (Hconst _ _ _ _ _ _ Hxl Hxh).
Qed.

End EncoderDegeneracy.

Lemma encoder_degeneracy_witness :
  exists out y,
    mdct_to_hsv [[0; 1]]%R 4 44100 1%Z = Ok out /\
    cell out 0 0 = Some y /\
    (exists h, hue_of y = Fin h) /\
    ((exists v, saturation_of y = Fin v) \/ saturation_of y = NaN) /\
    (saturation_of y = NaN <->
       forall r' c' x, cell [[0; 1]]%R r' c' = Some x -> x = 0%R) /\
    ((exists v, brightness_of y = Fin v) \/ brightness_of y = NaN) /\
    (brightness_of y = NaN <->
       forall r1 c1 x1 r2 c2 x2,
         cell [[0; 1]]%R r1 c1 = Some x1 -> cell [[0; 1]]%R r2 c2 = Some x2 ->
         Rabs x1 = Rabs x2).
Proof.
  destruct (@mdct_to_hsv_total Z [[0; 1]]%R 4 44100 1%Z) as [out Hout];
    [apply valid_transform_small | reflexivity |].
  destruct (mdct_to_hsv_cells _ _ _ _ Hout)
    as (lo & hi & mx & hue_row & _ & _ & _ & _ & Hcells & _).
  destruct (Hcells 0%nat 0%nat 0%R eq_refl) as (h & _ & Hy).
  eexists out, _. split; [exact Hout|]. split; [exact Hy|].
  exact (@encoder_degeneracy Z _ _ _ _ _ Hout 0%nat 0%nat _ Hy).
Defined.

(** ** Color Encoder: gain, sign and order *)

Section EncoderGain.

Local Open Scope R_scope.

Lemma global_max_unique (M : matrix R) (f : R -> R) (m m' : R) :
  global_max M f m -> global_max M f m' -> m = m'.
Proof.
  intros ((r & c & x & Hx & <-) & Hm) ((r' & c' & x' & Hx' & <-) & Hm').
  apply Rle_antisym; eauto.
Qed.

Lemma global_max_scale (c : R) (M : matrix R) (m : R) :
  0 < c -> global_max M Rabs m -> global_max (mmap (Rmult c) M) Rabs (c * m).
Proof.
  intros Hc ((r & col & x & Hx & <-) & Hm). split.
  - exists r, col, (c * x). rewrite cell_mmap, Hx. split; [reflexivity|].
    rewrite Rabs_mult, (Rabs_pos_eq c) by lra. reflexivity.
  - intros r' c' y Hy. rewrite cell_mmap in Hy.
    destruct (cell M r' c') as [x'|] eqn:Hx'; [|discriminate].
    injection Hy as <-. rewrite Rabs_mult, (Rabs_pos_eq c) by lra.
    apply Rmult_le_compat_l; [lra | eauto].
Qed.

Lemma saturation_cell_scale (c mx x : R) :
  0 < c -> Rabs x <= mx ->
  saturation_cell (c * mx) (c * x) = saturation_cell mx x.
Proof.
  intros Hc Hx. destruct (Req_dec mx 0) as [->|Hmx].
  - rewrite (@Rabs_le_0 x Hx), !Rmult_0_r. reflexivity.
  - rewrite !saturation_cell_finite by (try apply Rmult_integral_contrapositive; lra).
    f_equal. field. lra.
Qed.

Lemma hue_cell_functional (sr F col : Z) (h h' : npfloat) :
  hue_cell sr F col h -> hue_cell sr F col h' -> h = h'.
Proof.
  intros (b & q & Hb & Hq & ->) (b' & q' & Hb' & Hq' & ->). congruence.
Qed.

Lemma hue_row_unique (sr F : Z) (l : list Z) :
  forall a b, Forall2 (hue_cell sr F) l a -> Forall2 (hue_cell sr F) l b -> a = b.
Proof.
  induction l as [|col l IH]; intros a b Ha Hb; inversion Ha; inversion Hb; subst;
    [reflexivity|].
  f_equal; [eapply hue_cell_functional; eauto | eauto].
Qed.

Context {A : Type}.
Variables (M : matrix R) (F sr : Z) (s : A).

(** X16. Hue and saturation do not depend on the level of the signal:
    multiplying the transform matrix by a positive gain leaves the hue and
    the saturation of every cell unchanged. *)
Theorem hue_saturation_gain_invariant (c : R) (out out' : matrix hsv) :
  0 < c ->
  mdct_to_hsv M F sr s = Ok out ->
  mdct_to_hsv (mmap (Rmult c) M) F sr s = Ok out' ->
  forall r col,
    hue_at out' r col = hue_at out r col /\
    saturation_at out' r col = saturation_at out r col.
Proof.
  intros Hc Hout Hout' r col.
  destruct (mdct_to_hsv_cells _ _ _ _ Hout)
    as (lo & hi & mx & hue_row & _ & _ & Hmx & Hhue & Hcells & Hinv).
  destruct (mdct_to_hsv_cells _ _ _ _ Hout')
    as (lo' & hi' & mx' & hue_row' & _ & _ & Hmx' & Hhue' & Hcells' & Hinv').
  apply (amax_global_max Rabs) in Hmx, Hmx'.
  pose proof (global_max_unique Hmx' (global_max_scale Hc Hmx)) as ->.
  pose proof (hue_row_unique Hhue' Hhue) as ->.
  unfold hue_at, saturation_at.
  destruct (cell M r col) as [x|] eqn:Hx.
  - destruct (Hcells _ _ _ Hx) as (h & Hh & E).
    destruct (Hcells' r col (c * x)) as (h' & Hh' & E').
    { now rewrite cell_mmap, Hx. }
    change (cell out r col) with (@cell hsv out r col).
    change (cell out' r col) with (@cell hsv out' r col).
    rewrite E, E'. cbn [option_map hue_of saturation_of fst snd].
    split; [congruence|]. f_equal.
    apply saturation_cell_scale; [assumption|]. apply Hmx in Hx. exact Hx.
  - assert (cell out r col = None) as E.
    { destruct (cell out r col) as [y|] eqn:Hy; [|reflexivity].
      destruct (Hinv _ _ _ Hy) as (h & x & _ & Hx' & _). congruence. }
    assert (cell out' r col = None) as E'.
    { destruct (cell out' r col) as [y|] eqn:Hy; [|reflexivity].
      destruct (Hinv' _ _ _ Hy) as (h & x & _ & Hx' & _).
      rewrite cell_mmap, Hx in Hx'. discriminate. }
    change (cell out r col) with (@cell hsv out r col).
    change (cell out' r col) with (@cell hsv out' r col).
    rewrite E, E'. split; reflexivity.
Qed.

(** X17. The saturation never contradicts the sign of a coefficient
    (exact arithmetic): in a matrix that is not all zero a non-negative
    cell has a saturation of at least 0.8 and a non-positive cell of at
    most 0.8, so a cell with a saturation above 0.8 is positive and one
    with a saturation below 0.8 is negative; a zero cell has 0.8. *)
Theorem saturation_sign (out : matrix hsv) (r col : nat) (x : R) :
  mdct_to_hsv M F sr s = Ok out ->
  (exists r' c' x', cell M r' c' = Some x' /\ x' <> 0) ->
  cell M r col = Some x ->
  exists v,
    saturation_at out r col = Some (Fin v) /\
    (0 <= x -> 0.8 <= v) /\ (x <= 0 -> v <= 0.8) /\
    (0.8 < v -> 0 < x) /\ (v < 0.8 -> x < 0) /\
    (x = 0 -> v = 0.8).
Proof.
  intros Hout (r0 & c0 & x0 & Hx0 & Hne) Hx.
  destruct (mdct_to_hsv_cells _ _ _ _ Hout)
    as (lo & hi & mx & hue_row & _ & _ & Hmx & _ & Hcells & _).
  apply (amax_global_max Rabs) in Hmx. destruct Hmx as (_ & Hmx).
  assert (0 < mx) as Hpos.
  { apply Rlt_le_trans with (Rabs x0); [now apply Rabs_pos_lt | eauto]. }
  destruct (Hcells _ _ _ Hx) as (h & _ & E).
  exists (0.8 + 0.2 / mx * x). split.
  - unfold saturation_at. change (cell out r col) with (@cell hsv out r col).
    rewrite E. cbn. rewrite saturation_cell_finite by lra. reflexivity.
  - assert (0 < / mx) as Hinv by now apply Rinv_0_lt_compat.
    unfold Q2R. cbn [Qnum Qden]. unfold Rdiv.
    replace (8 * / 10 + 2 * / 10 * / mx * x) with (8 * / 10 + 2 * / 10 * (/ mx * x))
      by ring.
    assert (0 <= x -> 0 <= / mx * x) as Hp
        by (intros; apply Rmult_le_pos; lra).
    assert (x <= 0 -> / mx * x <= 0) as Hn.
    { intros H. rewrite <- (Rmult_0_r (/ mx)). apply Rmult_le_compat_l; lra. }
    split; [intros H; apply Hp in H; lra|].
    split; [intros H; apply Hn in H; lra|].
    split; [|split].
    + intros H. destruct (Rle_or_lt x 0) as [Hle|]; [|assumption].
      apply Hn in Hle. lra.
    + intros H. destruct (Rle_or_lt 0 x) as [Hle|]; [|assumption].
      apply Hp in Hle. lra.
    + intros ->. rewrite Rmult_0_r. lra.
Qed.

End EncoderGain.

Section EncoderOrder.

Local Open Scope R_scope.

Lemma log_magnitude_le_iff (x y : R) :
  log_magnitude x <= log_magnitude y <-> Rabs x <= Rabs y.
Proof.
  split; [|apply log_magnitude_le].
  intros H. destruct (Rle_or_lt (Rabs x) (Rabs y)) as [|Hlt]; [assumption|].
  apply log_magnitude_lt in Hlt. lra.
Qed.

Lemma normalised_le_iff (a b lo hi : R) :
  lo < hi -> ((a - lo) / (hi - lo) <= (b - lo) / (hi - lo) <-> a <= b).
Proof.
  intros H. assert (0 < / (hi - lo)) as Hinv by (apply Rinv_0_lt_compat; lra).
  unfold Rdiv. split; intros Hle.
  - apply Rmult_le_reg_r in Hle; [lra | assumption].
  - apply Rmult_le_compat_r; lra.
Qed.

Context {A : Type}.
Variables (M : matrix R) (F sr : Z) (s : A) (out : matrix hsv).
Hypothesis Hout : mdct_to_hsv M F sr s = Ok out.
Hypothesis Hvaried :
  exists r c x r' c' y,
    cell M r c = Some x /\ cell M r' c' = Some y /\ Rabs x <> Rabs y.

(** X18. Brightness never inverts the order of the magnitudes and
    ignores the sign (exact arithmetic): when the magnitudes are not all
    equal, a cell of smaller or equal magnitude is at most as bright as
    the other, cells of equal magnitude, [x] and [-x] in particular, are
    equally bright, and a strictly brighter cell has a strictly larger
    magnitude. *)
Theorem brightness_orders_magnitude (r c r' c' : nat) (x y : R) :
  cell M r c = Some x -> cell M r' c' = Some y ->
  exists vx vy,
    brightness_at out r c = Some (Fin vx) /\
    brightness_at out r' c' = Some (Fin vy) /\
    (Rabs x <= Rabs y -> vx <= vy) /\
    (Rabs x = Rabs y -> vx = vy) /\
    (vx < vy -> Rabs x < Rabs y).
Proof.
  intros Hx Hy.
  destruct Hvaried as (r1 & c1 & x1 & r2 & c2 & x2 & Hx1 & Hx2 & Hne).
  destruct (mdct_to_hsv_cells _ _ _ _ Hout)
    as (lo & hi & mx & hue_row & Hlo & Hhi & _ & _ & Hcells & _).
  apply amin_global_min in Hlo. apply amax_global_max in Hhi.
  destruct Hlo as (_ & Hlo). destruct Hhi as (_ & Hhi).
  assert (lo < hi) as Hlt.
  { pose proof (Hlo _ _ _ Hx1). pose proof (Hlo _ _ _ Hx2).
    pose proof (Hhi _ _ _ Hx1). pose proof (Hhi _ _ _ Hx2).
    destruct (Req_dec (log_magnitude x1) (log_magnitude x2)) as [E|E];
      [apply log_magnitude_inj in E; contradiction | lra]. }
  destruct (Hcells _ _ _ Hx) as (h & _ & Ex).
  destruct (Hcells _ _ _ Hy) as (h' & _ & Ey).
  exists ((log_magnitude x - lo) / (hi - lo)), ((log_magnitude y - lo) / (hi - lo)).
  unfold brightness_at.
  change (cell out r c) with (@cell hsv out r c).
  change (cell out r' c') with (@cell hsv out r' c').
  rewrite Ex, Ey. cbn [option_map brightness_of snd].
  rewrite !brightness_cell_finite by assumption.
  split; [reflexivity|]. split; [reflexivity|].
  pose proof (@normalised_le_iff (log_magnitude x) (log_magnitude y) lo hi Hlt) as H1.
  pose proof (@normalised_le_iff (log_magnitude y) (log_magnitude x) lo hi Hlt) as H2.
  pose proof (log_magnitude_le_iff x y) as L1.
  pose proof (log_magnitude_le_iff y x) as L2.
  split; [tauto|]. split.
  - intros E. apply Rle_antisym; [apply H1, L1; lra | apply H2, L2; lra].
  - intros H. destruct (Rle_or_lt (Rabs y) (Rabs x)) as [Hle|]; [|assumption].
    apply L2, H2 in Hle. lra.
Qed.

End EncoderOrder.

(** ** Negative sample rate, and the outcomes of the pipeline *)

Section NegativeRate.

Local Open Scope Z_scope.

Lemma range_two (n : Z) :
  2 <= n -> exists rest, range n = 0 :: 1 :: rest.
Proof.
  intros Hn. unfold range.
  destruct (Z.to_nat n) as [|[|k]] eqn:E; try lia.
  cbn [seq map]. eauto.
Qed.

(** X19. With a negative sample rate every bin but the first has a
    negative frequency and gets the sentinel band 7, for which the hue
    list has no entry: on a matrix with at least one cell and a frame size
    of at least 4 the encoder raises IndexError. *)
Theorem mdct_to_hsv_negative_rate {A : Type} (M : matrix R) (F sr : Z) (s : A) :
  concat M <> [] -> sr < 0 -> 4 <= F ->
  mdct_to_hsv M F sr s = Raise IndexError.
Proof.
  intros HM Hsr HF. unfold mdct_to_hsv. rewrite mmap_log_magnitude.
  unfold amin, amax. rewrite !concat_mmap.
  destruct (concat M) as [|x xs]; [congruence|].
  cbn [map reduce bind].
  rewrite truediv_one by lia. cbn [bind].
  destruct (@fftfreq_rate F sr) as (fs & -> & _); [lia|lia|]. cbn [bind].
  assert (2 <= F / 2) as HW by (Z.to_euclidean_division_equations; lia).
  unfold check_dims at 1. cbn [forallb].
  destruct (Z.leb_spec 0 (F / 2)); [|lia]. cbn [andb bind].
  destruct (range_two HW) as [rest ->]. cbn [mapM].
  rewrite !get_frequency_band_product by lia.
  assert (band_of_product (0 * sr) F = 0) as ->.
  { unfold band_of_product. rewrite Z.mul_0_l.
    destruct (Z.ltb_spec 0 0); [lia|].
    destruct (Z.ltb_spec 0 (60 * F)); [reflexivity | lia]. }
  assert (band_of_product (1 * sr) F = 7) as ->.
  { unfold band_of_product. destruct (Z.ltb_spec (1 * sr) 0); [reflexivity | lia]. }
  reflexivity.
Qed.

Lemma mdct_to_hsv_negative_rate_witness :
  mdct_to_hsv [[0; 1]]%R 4 (-44100) 1 = Raise IndexError.
Proof.
  apply (@mdct_to_hsv_negative_rate Z [[0; 1]]%R 4 (-44100) 1);
    [discriminate | reflexivity | discriminate].
Defined.

Variable audio : list R.
Hypothesis Hlen : 1024 <= len audio.

(** X20. On a waveform of at least one frame the pipeline depends on the
    sample rate only: for a positive rate it returns the seven band
    meshes, all with one row per frame, [1 + (N - 1024) // 512] of them;
    for a negative rate it raises IndexError and for a zero rate
    ZeroDivisionError. *)
Theorem main_outcomes (sr : Z) :
  (0 < sr ->
     exists ms,
       main audio sr = Ok ms /\ length ms = 7%nat /\
       forall m, In m ms ->
         len (band_cells m) = 1 + (len audio - 1024) / 512 /\
         theta_edges m = 2 + (len audio - 1024) / 512) /\
  (sr < 0 -> main audio sr = Raise IndexError) /\
  (sr = 0 -> main audio sr = Raise ZeroDivisionError).
Proof.
  pose proof (@apply_mdct_frames_valid audio 1024 512) as Hvalid.
  set (M := map _ _) in Hvalid.
  specialize (Hvalid ltac:(lia) ltac:(lia) Hlen).
  assert (0 <= (len audio - 1024) / 512) as Hq by (apply Z.div_pos; lia).
  assert (len M = 1 + (len audio - 1024) / 512) as HlenM.
  { unfold M, len. rewrite length_map, length_range. fold (len audio). lia. }
  destruct (valid_transform_amin Rmin Hvalid) as [lo Hlo].
  destruct (valid_transform_amin Rmax Hvalid) as [hi Hhi].
  assert (forall sr, sr <> 0 ->
            main audio sr =
            (hsv_array <- mdct_to_hsv M 1024 sr 1 ;;
             plot_polar_spectrogram hsv_array 1024 sr)) as Hmain.
  { intros sr0 Hsr0. rewrite main_unfold.
    rewrite (@apply_mdct_frames audio 1024 512 sr0) by lia.
    fold M. cbn [bind]. unfold amin, amax. rewrite Hlo, Hhi. reflexivity. }
  split; [|split].
  - intros Hsr. rewrite Hmain by lia.
    destruct (@mdct_to_hsv_total Z M 1024 sr 1 Hvalid Hsr) as [out Hout].
    pose proof (mdct_to_hsv_length _ _ _ _ Hout) as Hlenout.
    rewrite Hout. cbn [bind].
    destruct (@draw_bands_total out 512 (@mdct_to_hsv_wide _ _ _ _ _ _ Hvalid Hout)
                (range 7)) with (col := 0) as (ms & Hms & Hlenms).
    { change (range 7) with [0; 1; 2; 3; 4; 5; 6]. repeat constructor; lia. }
    { lia. }
    { reflexivity. }
    exists ms. split; [exact Hms|]. split; [exact Hlenms|].
    destruct (@plot_meshes out 1024 sr ms Hms)
      as (m0 & m1 & m2 & m3 & m4 & m5 & m6 & -> & H0 & H1 & H2 & H3 & H4 & H5 & H6).
    intros m Hin. cbn [In] in Hin.
    repeat (destruct Hin as [<- | Hin]); try contradiction;
      match goal with
      | H : mesh_of_band _ ?b ?start ?m |- context [band_cells ?m] =>
          pose proof (mesh_cells H ltac:(lia)) as (Hl & _);
          destruct H as (_ & _ & _ & Ht & _)
      end;
      unfold len in *; rewrite ?Ht, Hl, Hlenout; lia.
  - intros Hsr. rewrite Hmain by lia.
    rewrite mdct_to_hsv_negative_rate; [reflexivity| |lia|lia].
    destruct Hlo. destruct (concat M); [discriminate | discriminate].
  - intros ->. reflexivity.
Qed.

End NegativeRate.

Lemma hue_saturation_gain_invariant_witness :
  exists out out',
    mdct_to_hsv [[-2; 1]]%R 4 44100 1%Z = Ok out /\
    mdct_to_hsv (mmap (Rmult 3) [[-2; 1]]%R) 4 44100 1%Z = Ok out' /\
    forall r col,
      hue_at out' r col = hue_at out r col /\
      saturation_at out' r col = saturation_at out r col.
Proof.
  destruct (@mdct_to_hsv_total Z [[-2; 1]]%R 4 44100 1%Z) as [out Hout];
    [apply valid_transform_small | reflexivity |].
  destruct (@mdct_to_hsv_total Z (mmap (Rmult 3) [[-2; 1]]%R) 4 44100 1%Z)
    as [out' Hout']; [apply valid_transform_small | reflexivity |].
  exists out, out'. split; [exact Hout|]. split; [exact Hout'|].
  apply (@hue_saturation_gain_invariant Z [[-2; 1]]%R 4 44100 1%Z 3%R out out');
    [lra | exact Hout | exact Hout'].
Defined.

Lemma saturation_sign_witness :
  exists out v,
    mdct_to_hsv [[-2; 1]]%R 4 44100 1%Z = Ok out /\
    saturation_at out 0 0 = Some (Fin v) /\
    (0 <= -2 -> 0.8 <= v)%R /\ (-2 <= 0 -> v <= 0.8)%R /\
    (0.8 < v -> 0 < -2)%R /\ (v < 0.8 -> -2 < 0)%R /\
    (-2 = 0 -> v = 0.8)%R.
Proof.
  destruct (@mdct_to_hsv_total Z [[-2; 1]]%R 4 44100 1%Z) as [out Hout];
    [apply valid_transform_small | reflexivity |].
  destruct (@saturation_sign Z [[-2; 1]]%R 4 44100 1%Z out 0%nat 0%nat (-2)%R Hout)
    as (v & H).
  - exists 0%nat, 1%nat, 1%R. split; [reflexivity | lra].
  - reflexivity.
  - exists out, v. split; [exact Hout | exact H].
Defined.

Lemma brightness_orders_magnitude_witness :
  exists out vx vy,
    mdct_to_hsv [[-2; 1]]%R 4 44100 1%Z = Ok out /\
    brightness_at out 0 0 = Some (Fin vx) /\
    brightness_at out 0 1 = Some (Fin vy) /\
    (Rabs (-2) <= Rabs 1 -> vx <= vy)%R /\
    (Rabs (-2) = Rabs 1 -> vx = vy)%R /\
    (vx < vy -> Rabs (-2) < Rabs 1)%R.
Proof.
  destruct (@mdct_to_hsv_total Z [[-2; 1]]%R 4 44100 1%Z) as [out Hout];
    [apply valid_transform_small | reflexivity |].
  destruct (@brightness_orders_magnitude Z [[-2; 1]]%R 4 44100 1%Z out Hout)
    with (r := 0%nat) (c := 0%nat) (r' := 0%nat) (c' := 1%nat) (x := (-2)%R) (y := 1%R)
    as (vx & vy & H).
  - exists 0%nat, 0%nat, (-2)%R, 0%nat, 1%nat, 1%R.
    split; [reflexivity|]. split; [reflexivity|].
    assert (Rabs (-2) = 2%R) as -> by (unfold Rabs; destruct (Rcase_abs (-2)); lra).
    rewrite Rabs_R1. lra.
  - reflexivity.
  - reflexivity.
  - exists out, vx, vy. split; [exact Hout | exact H].
Defined.

Lemma main_outcomes_witness :
  (0 < 44100 ->
     exists ms,
       main (repeat 1%R 2000) 44100 = Ok ms /\ length ms = 7%nat /\
       forall m, In m ms ->
         len (band_cells m) = 1 + (len (repeat 1%R 2000) - 1024) / 512 /\
         theta_edges m = 2 + (len (repeat 1%R 2000) - 1024) / 512)%Z /\
  (44100 < 0 -> main (repeat 1%R 2000) 44100 = Raise IndexError)%Z /\
  (44100 = 0 -> main (repeat 1%R 2000) 44100 = Raise ZeroDivisionError)%Z.
Proof.
  apply (@main_outcomes (repeat 1%R 2000)).
  rewrite len_repeat. discriminate.
Defined.

(** ** Framer/Transformer: the analysis window *)

Section Window.

Local Open Scope R_scope.

Lemma sine_window_nth (F k : Z) :
  (0 <= k < F)%Z ->
  nth_error (sine_window F) (Z.to_nat k) = Some (sin (PI * (IZR k + 0.5) / IZR F)).
Proof.
  intros Hk. unfold sine_window.
  rewrite nth_error_map, nth_error_range by lia.
  cbn [option_map]. now rewrite Z2Nat.id by lia.
Qed.

Lemma sine_window_positive (F k : Z) :
  (0 <= k < F)%Z -> 0 < sin (PI * (IZR k + 0.5) / IZR F) <= 1.
Proof.
  intros Hk.
  assert (0 <= IZR k) as H0 by (apply IZR_le; lia).
  assert (IZR k <= IZR F - 1) as H1
      by (rewrite <- minus_IZR; apply IZR_le; lia).
  assert (0 < IZR F) as HF by (apply IZR_lt; lia).
  assert (0 < / IZR F) as Hinv by now apply Rinv_0_lt_compat.
  pose proof PI_RGT_0 as Hpi.
  assert (0 < (IZR k + 0.5) / IZR F < 1) as [Hlo Hhi].
  { unfold Q2R. cbn [Qnum Qden]. unfold Rdiv. split.
    - apply Rmult_lt_0_compat; lra.
    - apply Rmult_lt_reg_r with (IZR F); [assumption|].
      rewrite Rmult_assoc, Rinv_l by lra. lra. }
  replace (PI * (IZR k + 0.5) / IZR F) with (PI * ((IZR k + 0.5) / IZR F))
    by (unfold Rdiv; ring).
  split; [|apply SIN_bound].
  apply sin_gt_0.
  - apply Rmult_lt_0_compat; assumption.
  - rewrite <- (Rmult_1_r PI) at 2. apply Rmult_lt_compat_l; assumption.
Qed.

(** X21. The analysis window is positive, at most 1, and power
    complementary at the hop of half a frame: for an even frame size the
    squares of the weights that two consecutive frames give to the same
    sample, [w[i]] and [w[i + F/2]], sum to 1. *)
Theorem sine_window_power_complementary (F i : Z) :
  (0 < F)%Z -> (F mod 2 = 0)%Z -> (0 <= i < F / 2)%Z ->
  exists a b,
    nth_error (sine_window F) (Z.to_nat i) = Some a /\
    nth_error (sine_window F) (Z.to_nat (i + F / 2)) = Some b /\
    a * a + b * b = 1 /\ 0 < a <= 1 /\ 0 < b <= 1.
Proof.
  intros HF Heven Hi.
  assert (F = 2 * (F / 2))%Z as E by (Z.to_euclidean_division_equations; lia).
  set (h := (F / 2)%Z) in *.
  assert (0 < IZR h) as Hh by (apply IZR_lt; lia).
  exists (sin (PI * (IZR i + 0.5) / IZR F)), (sin (PI * (IZR (i + h) + 0.5) / IZR F)).
  split; [apply sine_window_nth; lia|].
  split; [apply sine_window_nth; lia|].
  split; [|split; apply sine_window_positive; lia].
  assert (IZR F = 2 * IZR h) as EF by (rewrite <- mult_IZR; f_equal; exact E).
  rewrite !EF, plus_IZR.
  replace (PI * (IZR i + IZR h + 0.5) / (2 * IZR h))
    with (PI / 2 + PI * (IZR i + 0.5) / (2 * IZR h)) by (field; lra).
  rewrite <- cos_sin.
  pose proof (sin2_cos2 (PI * (IZR i + 0.5) / (2 * IZR h))) as H.
  unfold Rsqr in H. exact H.
Qed.

End Window.

Lemma sine_window_power_complementary_witness :
  exists a b,
    nth_error (sine_window 1024) (Z.to_nat 3) = Some a /\
    nth_error (sine_window 1024) (Z.to_nat (3 + 1024 / 2)) = Some b /\
    (a * a + b * b = 1 /\ 0 < a <= 1 /\ 0 < b <= 1)%R.
Proof.
  apply (@sine_window_power_complementary 1024 3);
    [reflexivity | reflexivity | split; [discriminate | reflexivity]].
Defined.

(** ** Framer/Transformer: earlier frames do not depend on later samples *)

Section FramerPrefix.

Local Open Scope Z_scope.

Lemma firstn_range (n n' : Z) :
  0 <= n <= n' -> firstn (Z.to_nat n) (range n') = range n.
Proof.
  intros Hn. apply nth_error_ext. intros i. rewrite nth_error_firstn.
  destruct (Nat.ltb_spec i (Z.to_nat n)).
  - rewrite !nth_error_range by lia. reflexivity.
  - symmetry. apply nth_error_None. rewrite length_range. lia.
Qed.

(** X22. Appending samples to a waveform of at least one frame keeps
    every frame already computed and appends the new ones: the transform
    of the longer waveform starts with the transform of the shorter one,
    followed by one row for each hop that the added samples complete. *)
Theorem apply_mdct_prefix (audio tail : list R) (F H sr : Z) :
  2 <= F -> 0 < H -> sr <> 0 -> F <= len audio ->
  exists M rest,
    apply_mdct audio F H sr = Ok M /\
    apply_mdct (audio ++ tail) F H sr = Ok (M ++ rest) /\
    len rest = (len audio + len tail - F) / H - (len audio - F) / H.
Proof.
  intros HF HH Hsr HN.
  pose proof (len_nonneg tail) as Ht.
  rewrite !apply_mdct_frames by (rewrite ?len_app; lia).
  rewrite len_app.
  set (n := 1 + (len audio - F) / H).
  set (n' := 1 + (len audio + len tail - F) / H).
  assert (0 <= (len audio - F) / H) as Hq by (apply Z.div_pos; lia).
  assert ((len audio - F) / H <= (len audio + len tail - F) / H) as Hle
      by (apply Z.div_le_mono; lia).
  set (g := fun a n0 => firstn (Z.to_nat (F / 2)) (dct2_ortho (windowed_frame a F H n0))).
  change (exists M rest,
             Ok (map (g audio) (range n)) = Ok M /\
             Ok (map (g (audio ++ tail)) (range n')) = Ok (M ++ rest) /\
             len rest = (len audio + len tail - F) / H - (len audio - F) / H).
  exists (map (g audio) (range n)),
         (skipn (Z.to_nat n) (map (g (audio ++ tail)) (range n'))).
  split; [reflexivity|]. split.
  - f_equal.
    rewrite <- (firstn_skipn (Z.to_nat n) (map (g (audio ++ tail)) (range n'))) at 1.
    f_equal. rewrite firstn_map, firstn_range by (unfold n, n'; lia).
    apply map_ext_in. intros k Hk. apply In_range in Hk.
    destruct (@frame_inside audio F H HF HH k HN Hk) as [Hs He].
    unfold g. do 2 f_equal. unfold windowed_frame. apply map_ext_in. intros i Hi.
    apply In_range in Hi. f_equal. apply app_nth1. unfold len in He. lia.
  - unfold len at 1. rewrite length_skipn, length_map, length_range.
    unfold n, n'. lia.
Qed.

End FramerPrefix.

Lemma apply_mdct_prefix_witness :
  exists M rest,
    apply_mdct [1; 2; 3; 4; 5; 6]%R 4 2 44100 = Ok M /\
    apply_mdct ([1; 2; 3; 4; 5; 6] ++ [7; 8; 9])%R 4 2 44100 = Ok (M ++ rest) /\
    len rest = ((len [1; 2; 3; 4; 5; 6]%R + len [7; 8; 9]%R - 4) / 2
                - (len [1; 2; 3; 4; 5; 6]%R - 4) / 2)%Z.
Proof.
  apply (@apply_mdct_prefix [1; 2; 3; 4; 5; 6]%R [7; 8; 9]%R 4 2 44100);
    [discriminate | reflexivity | discriminate | discriminate].
Defined.
